(** * The Hacker News feed store ([src/store.ts])

    A shallow embedding of the zustand store [useUIStore] and of the expiring
    storage handler [customStorage], together with the properties of the
    feed-state specification that concern them.

    Conventions of the embedding:
    - a JavaScript [number] that the store handles (ids, scores, times, page
      numbers, millisecond timestamps) is an integer, modelled by [Z]
      (JavaScript holds the integers up to 2^53 exactly; [NaN], the
      infinities and fractions are not modelled);
    - a JavaScript array is a [list]; a string is a [string], each of its
      characters standing for the UTF-16 code unit of the same number;
    - [get()] / [set(partial)] of zustand become explicit state passing: an
      action is a function [UIState -> UIState] that rebuilds the record with
      the fields of the partial state replaced;
    - [localStorage] is a finite map from keys to strings, and the clock
      ([new Date().getTime()]) is an explicit argument. *)

From Stdlib Require Import ZArith List Sorted Permutation Ascii String Lia Bool.
From Stdlib Require Import Decimal DecimalFacts DecimalPos DecimalZ DecimalString.
From stdpp Require Import base gmap strings list.

#[local] Set Warnings "-clear-no-such-hyp".

Import ListNotations.
Local Infix "+++" := String.append (right associativity, at level 60).
Local Open Scope string_scope.
Local Open Scope list_scope.
Local Open Scope Z_scope.

(** ** Data model *)

(** [interface Story]. The field [by] is spelled [by_] ([by] is a keyword). *)
Record Story := mkStory {
  id : Z;
  title : string;
  url : string;
  score : Z;
  by_ : string;
  time : Z
}.

(** The data fields of [interface UIState]; its function fields are the
    actions defined below. *)
Record UIState := mkUIState {
  searchQuery : string;
  stories : list Story;
  searchStories : list Story;
  page : Z;
  searchPage : Z
}.

(** The initial state given to [create]. *)
Definition initialState : UIState :=
  {| searchQuery := ""; stories := []; searchStories := [];
     page := 1; searchPage := 1 |}.

(** ** Array built-ins used by the store *)

Section ArrayBuiltins.
Context {A : Type}.

(** [Array.prototype.findIndex]: the index of the first element that
    satisfies the predicate, [-1] when there is none. [findIndex_from p k l]
    scans [l], whose first element has index [k]. *)
Fixpoint findIndex_from (p : A -> bool) (k : Z) (l : list A) : Z :=
  match l with
  | [] => -1
  | x :: l' => if p x then k else findIndex_from p (k + 1) l'
  end.

Definition findIndex (p : A -> bool) (l : list A) : Z := findIndex_from p 0 l.

(** [Array.prototype.filter] with the three-argument callback
    [(element, index, self)]. *)
Fixpoint filter_from (f : A -> Z -> list A -> bool) (self : list A)
         (k : Z) (l : list A) : list A :=
  match l with
  | [] => []
  | x :: l' =>
      if f x k self then x :: filter_from f self (k + 1) l'
      else filter_from f self (k + 1) l'
  end.

Definition Array_filter (f : A -> Z -> list A -> bool) (l : list A) : list A :=
  filter_from f l 0 l.

(** [Array.prototype.sort] with a comparator. ECMAScript (2019 onwards)
    requires the sort to be stable, and for a consistent comparator the
    result is then determined: [a] comes before [b] when [cmp a b < 0], and
    elements that compare equal keep their order. It is written here as an
    insertion sort: [sort_insert cmp x l] puts [x], which preceded every
    element of [l] in the input, in front of the first [y] with
    [cmp x y <= 0]. *)
Fixpoint sort_insert (cmp : A -> A -> Z) (x : A) (l : list A) : list A :=
  match l with
  | [] => [x]
  | y :: l' => if cmp x y <=? 0 then x :: y :: l' else y :: sort_insert cmp x l'
  end.

Definition Array_sort (cmp : A -> A -> Z) (l : list A) : list A :=
  fold_right (sort_insert cmp) [] l.
End ArrayBuiltins.

(** ** The actions of [useUIStore] *)

(** The callback of the [filter] call in [addStories] and [addSearchStories]:
    [(story, index, self) => self.findIndex(s => s.id === story.id) === index]. *)
Definition isFirstWithId (story : Story) (index : Z) (self : list Story) : bool :=
  findIndex (fun s => id s =? id story) self =? index.

(** The comparator of the [sort] call: [(a, b) => b.time - a.time]. *)
Definition byTimeDesc (a b : Story) : Z := time b - time a.

(** The expression both merging actions compute:
    [[...existingStories, ...newStories].filter(...).sort(...)]. *)
Definition mergeStories (existingStories newStories : list Story) : list Story :=
  Array_sort byTimeDesc (Array_filter isFirstWithId (existingStories ++ newStories)).

(** [setSearchQuery]: [if (query !== get().searchQuery)] the query is stored,
    the search page set to 1 and the search list emptied. *)
Definition setSearchQuery (query : string) (s : UIState) : UIState :=
  if negb (String.eqb query (searchQuery s)) then
    {| searchQuery := query; searchPage := 1; searchStories := [];
       stories := stories s; page := page s |}
  else s.

(** [addStories] and [addSearchStories]: the merged list replaces the list
    of its mode. *)
Definition addStories (newStories : list Story) (s : UIState) : UIState :=
  let existingStories := stories s in
  let updatedStories := mergeStories existingStories newStories in
  {| stories := updatedStories;
     searchQuery := searchQuery s; searchStories := searchStories s;
     page := page s; searchPage := searchPage s |}.

Definition addSearchStories (newStories : list Story) (s : UIState) : UIState :=
  let existingStories := searchStories s in
  let updatedStories := mergeStories existingStories newStories in
  {| searchStories := updatedStories;
     searchQuery := searchQuery s; stories := stories s;
     page := page s; searchPage := searchPage s |}.

(** [resetStories] and [resetSearchStories] empty a list. *)
Definition resetStories (s : UIState) : UIState :=
  {| stories := [];
     searchQuery := searchQuery s; searchStories := searchStories s;
     page := page s; searchPage := searchPage s |}.

Definition resetSearchStories (s : UIState) : UIState :=
  {| searchStories := [];
     searchQuery := searchQuery s; stories := stories s;
     page := page s; searchPage := searchPage s |}.

(** [setPage] and [setSearchPage] store the page number they are given. *)
Definition setPage (p : Z) (s : UIState) : UIState :=
  {| page := p;
     searchQuery := searchQuery s; stories := stories s;
     searchStories := searchStories s; searchPage := searchPage s |}.

Definition setSearchPage (p : Z) (s : UIState) : UIState :=
  {| searchPage := p;
     searchQuery := searchQuery s; stories := stories s;
     searchStories := searchStories s; page := page s |}.

(** The store as a transition system: one constructor per action. *)
Inductive Action :=
| SetSearchQuery (query : string)
| AddStories (newStories : list Story)
| AddSearchStories (newStories : list Story)
| ResetStories
| ResetSearchStories
| SetPage (p : Z)
| SetSearchPage (p : Z).

Definition step (a : Action) (s : UIState) : UIState :=
  match a with
  | SetSearchQuery q => setSearchQuery q s
  | AddStories l => addStories l s
  | AddSearchStories l => addSearchStories l s
  | ResetStories => resetStories s
  | ResetSearchStories => resetSearchStories s
  | SetPage p => setPage p s
  | SetSearchPage p => setSearchPage p s
  end.

(** The states the store can be in: the initial one and those an action
    leads to. *)
Inductive reachable : UIState -> Prop :=
| reachable_init : reachable initialState
| reachable_step a s : reachable s -> reachable (step a s).

(** ** [String.prototype.trim]

    Used by the driving layer ([query.trim() !== '']) to decide whether a
    search is active. A character of a Rocq string stands for the UTF-16 code
    unit of the same number; the white space and line terminators of
    ECMAScript in that range are TAB, LF, VT, FF, CR, SP and NBSP. *)
Definition isWhiteSpace (c : ascii) : bool :=
  let n := nat_of_ascii c in
  ((9 <=? n)%nat && (n <=? 13)%nat) || (n =? 32)%nat || (n =? 160)%nat.

Fixpoint trimStart (s : string) : string :=
  match s with
  | EmptyString => EmptyString
  | String c s' => if isWhiteSpace c then trimStart s' else s
  end.

Fixpoint trimEnd (s : string) : string :=
  match s with
  | EmptyString => EmptyString
  | String c s' =>
      match trimEnd s' with
      | EmptyString => if isWhiteSpace c then EmptyString else String c EmptyString
      | r => String c r
      end
  end.

Definition trim (s : string) : string := trimEnd (trimStart s).

(** ** The merge in the words of the specification *)

(** "Removes duplicates by id keeping the first occurrence": walk the list
    with the set of ids already seen and drop an item whose id is in it. *)
Fixpoint dedupFirst (seen : gset Z) (l : list Story) : list Story :=
  match l with
  | [] => []
  | x :: l' =>
      if decide (id x ∈ seen) then dedupFirst seen l'
      else x :: dedupFirst ({[id x]} ∪ seen) l'
  end.

(** The ids of a list of stories, as a set. *)
Definition idsOf (l : list Story) : gset Z := list_to_set (map id l).

(** Newest first: the order the store keeps its lists in. *)
Definition newestFirst (a b : Story) : Prop := time a >= time b.

(** The stories of [l] created at time [t], in the order [l] has them. *)
Definition createdAt (t : Z) (l : list Story) : list Story :=
  List.filter (fun s => time s =? t) l.

(** The first item of [l] whose id is [i]: the copy of [i] that a
    first-occurrence-wins rule keeps. *)
Definition firstWithId (i : Z) (l : list Story) : option Story :=
  find (fun s => id s =? i) l.

(** * The expiring key-value store ([customStorage]) *)

(** ** JavaScript values

    What [setItem] can be handed ([value: any]) and what [getItem] can
    return, as far as JSON goes: [undefined], functions (the actions of
    [UIState] are function-valued fields), [null], booleans, numbers,
    strings, arrays and plain objects.

    The numbers are the integers ([VNum n], a Number value when [n] is a
    safe integer: printing, parsing and subtraction are exact on these), the
    negative zero, [NaN] and the two infinities; numbers with a fraction are
    left out. A function is known by what a call of it returns: the one
    place where a function is called here is the [toJSON] method of an
    object, by [JSON.stringify]; a function that throws or does not return
    is left out. An array has its elements only, and an object is the list
    of its own properties, in the order of their enumeration; objects with
    properties got from a prototype of their own ([Date], for one) are left
    out. Two lists that differ in order only stand for objects that are
    deep-equal. *)
#[local] Unset Elimination Schemes.
Inductive jsval :=
| VUndefined
| VFunction (returns : jsval)
| VNull
| VBool (b : bool)
| VNum (n : Z)
| VNegZero
| VNaN
| VInfinity (negative : bool)
| VStr (s : string)
| VArr (elements : list jsval)
| VObj (properties : list (string * jsval)).
#[local] Set Elimination Schemes.

(** Induction over values, with the induction hypothesis for what a
    function returns, for the elements of an array and for the property
    values of an object. *)
Section jsval_induction.
Variable P : jsval -> Prop.
Hypothesis Hundefined : P VUndefined.
Hypothesis Hfunction : forall r, P r -> P (VFunction r).
Hypothesis Hnull : P VNull.
Hypothesis Hbool : forall b, P (VBool b).
Hypothesis Hnum : forall n, P (VNum n).
Hypothesis Hnegzero : P VNegZero.
Hypothesis Hnan : P VNaN.
Hypothesis Hinfinity : forall negative, P (VInfinity negative).
Hypothesis Hstr : forall s, P (VStr s).
Hypothesis Harr : forall l, Forall P l -> P (VArr l).
Hypothesis Hobj : forall l, Forall (fun p => P (snd p)) l -> P (VObj l).

Fixpoint jsval_ind (v : jsval) : P v :=
  match v with
  | VUndefined => Hundefined
  | VFunction r => Hfunction r (jsval_ind r)
  | VNull => Hnull
  | VBool b => Hbool b
  | VNum n => Hnum n
  | VNegZero => Hnegzero
  | VNaN => Hnan
  | VInfinity negative => Hinfinity negative
  | VStr s => Hstr s
  | VArr l =>
      Harr l ((fix elements (l : list jsval) : Forall P l :=
                 match l with
                 | [] => List.Forall_nil P
                 | x :: l' => @List.Forall_cons _ P x l' (jsval_ind x) (elements l')
                 end) l)
  | VObj l =>
      Hobj l ((fix properties (l : list (string * jsval))
                : Forall (fun p => P (snd p)) l :=
                 match l with
                 | [] => List.Forall_nil _
                 | p :: l' =>
                     @List.Forall_cons _ (fun p => P (snd p)) p l'
                                       (jsval_ind (snd p)) (properties l')
                 end) l)
  end.
End jsval_induction.

(** [Number.MAX_SAFE_INTEGER] and [Number.isSafeInteger], on integers. *)
Definition MAX_SAFE_INTEGER : Z := 2 ^ 53 - 1.

Definition isSafeInteger (n : Z) : bool := Z.abs n <=? MAX_SAFE_INTEGER.

(** A value that JSON represents: it is made of [null], booleans, safe
    integers other than the negative zero, strings, arrays and objects only
    (so no object in it has a [toJSON] method), and, as in every JavaScript
    object, no object has a key twice. *)
Fixpoint jsonData (v : jsval) : bool :=
  match v with
  | VUndefined | VFunction _ | VNegZero | VNaN | VInfinity _ => false
  | VNull | VBool _ | VStr _ => true
  | VNum n => isSafeInteger n
  | VArr l => forallb jsonData l
  | VObj l =>
      forallb (fun p => jsonData (snd p)) l && bool_decide (NoDup (map fst l))
  end.

(** Every integer in the value, and in what its functions return, is a safe
    integer: the value is one that JavaScript has. *)
Fixpoint numbersSafe (v : jsval) : bool :=
  match v with
  | VNum n => isSafeInteger n
  | VFunction r => numbersSafe r
  | VArr l => forallb numbersSafe l
  | VObj l => forallb (fun p => numbersSafe (snd p)) l
  | _ => true
  end.

(** ** Outcomes

    A call returns a value or throws. [Unmodelled] marks the inputs on which
    this embedding does not say what JavaScript does (JSON numerals with a
    fraction or an exponent or beyond the safe integers, [\u] escapes beyond
    code unit 255, the numeric coercion of strings, arrays and functions),
    and a parser out of fuel. *)
Inductive exn := SyntaxError | TypeError.

Inductive result (A : Type) : Type :=
| Ok (a : A)
| Throw (e : exn)
| Unmodelled.
Arguments Ok {A} a.
Arguments Throw {A} e.
Arguments Unmodelled {A}.

#[export] Instance result_ret : MRet result := fun A a => Ok a.
#[export] Instance result_bind : MBind result := fun A B f r =>
  match r with
  | Ok a => f a
  | Throw e => Throw e
  | Unmodelled => Unmodelled
  end.

(** ** [JSON.stringify] *)

Module JSON.

Definition quote : ascii := "034"%char.
Definition backslash : ascii := "\"%char.

Definition hexDigit (n : nat) : ascii :=
  nth n ["0"; "1"; "2"; "3"; "4"; "5"; "6"; "7"; "8"; "9";
         "a"; "b"; "c"; "d"; "e"; "f"]%char "0"%char.

(** One code unit inside a string literal (QuoteJSONString): the quote and
    the backslash are escaped, the control characters are written with
    their short escape or as [\u00XX]. *)
Definition quoteChar (c : ascii) : string :=
  let n := nat_of_ascii c in
  if (n =? 34)%nat then String backslash (String quote "")
  else if (n =? 92)%nat then String backslash (String backslash "")
  else if (n =? 8)%nat then String backslash "b"
  else if (n =? 9)%nat then String backslash "t"
  else if (n =? 10)%nat then String backslash "n"
  else if (n =? 12)%nat then String backslash "f"
  else if (n =? 13)%nat then String backslash "r"
  else if (n <? 32)%nat then
    String backslash
      (String "u" (String "0" (String "0"
         (String (hexDigit (n / 16)) (String (hexDigit (n mod 16)) "")))))
  else String c "".

Fixpoint quoteChars (s : string) : string :=
  match s with
  | EmptyString => EmptyString
  | String c s' => quoteChar c +++ quoteChars s'
  end.

Definition QuoteJSONString (s : string) : string :=
  String quote (quoteChars s +++ String quote "").

(** A safe integer in decimal, as [Number::toString] prints it. *)
Definition NumberToString (n : Z) : string :=
  DecimalString.NilEmpty.string_of_int (Z.to_int n).

Fixpoint joinComma (l : list string) : string :=
  match l with
  | [] => ""
  | [a] => a
  | a :: l' => a +++ String "," (joinComma l')
  end.

(** The second step of SerializeJSONProperty: a value that is an object
    with a callable [toJSON] property is replaced by what the call of it
    returns. Functions and arrays have no [toJSON] of their own. *)
Definition callToJSON (v : jsval) : jsval :=
  match v with
  | VObj l =>
      (fix find (l : list (string * jsval)) : jsval :=
         match l with
         | [] => v
         | (k, x) :: l' =>
             if String.eqb k "toJSON"
             then match x with VFunction r => r | _ => v end
             else find l'
         end) l
  | _ => v
  end.

(** The steps of SerializeJSONProperty after the second, on the value that
    step has left: [None] is the result [undefined]. The non-finite numbers
    are written [null] and the negative zero [0]. Every element of an array
    and every property value of an object goes through SerializeJSONProperty
    in turn, so through [callToJSON] first; in an array an element without a
    serialisation is written [null]; in an object a property without one is
    left out. *)
Fixpoint serialize (v : jsval) : option string :=
  match v with
  | VUndefined | VFunction _ => None
  | VNull | VNaN | VInfinity _ => Some "null"
  | VBool b => Some (if b then "true" else "false")
  | VNum n => Some (NumberToString n)
  | VNegZero => Some "0"
  | VStr s => Some (QuoteJSONString s)
  | VArr l =>
      Some ("[" +++
            joinComma (map (fun x => default "null" (serialize (callToJSON x))) l)
            +++ "]")
  | VObj l =>
      let members :=
        (fix members (l : list (string * jsval)) : list string :=
           match l with
           | [] => []
           | (k, x) :: l' =>
               match serialize (callToJSON x) with
               | Some sx =>
                   (QuoteJSONString k +++ ":" +++ sx) :: members l'
               | None => members l'
               end
           end) l in
      Some ("{" +++ joinComma members +++ "}")
  end.

Definition SerializeJSONProperty (v : jsval) : option string :=
  serialize (callToJSON v).

(** [JSON.stringify(v)], with no replacer and no indentation. *)
Definition stringify (v : jsval) : option string := SerializeJSONProperty v.

(** ** [JSON.parse] *)

(** JSON white space: space, TAB, LF, CR. *)
Definition isJSONSpace (c : ascii) : bool :=
  let n := nat_of_ascii c in
  (n =? 32)%nat || (n =? 9)%nat || (n =? 10)%nat || (n =? 13)%nat.

Fixpoint skipWhiteSpace (s : string) : string :=
  match s with
  | EmptyString => EmptyString
  | String c s' => if isJSONSpace c then skipWhiteSpace s' else s
  end.

(** [stripPrefix p s] is what follows [p] in [s], if [s] starts with [p]. *)
Fixpoint stripPrefix (p s : string) : option string :=
  match p, s with
  | EmptyString, _ => Some s
  | String a p', String b s' => if Ascii.eqb a b then stripPrefix p' s' else None
  | String _ _, EmptyString => None
  end.

Definition digitOf (c : ascii) : option (Decimal.uint -> Decimal.uint) :=
  match nat_of_ascii c with
  | 48%nat => Some D0 | 49%nat => Some D1 | 50%nat => Some D2
  | 51%nat => Some D3 | 52%nat => Some D4 | 53%nat => Some D5
  | 54%nat => Some D6 | 55%nat => Some D7 | 56%nat => Some D8
  | 57%nat => Some D9
  | _ => None
  end.

(** The longest run of decimal digits at the front of [s]. *)
Fixpoint parseDigits (s : string) : Decimal.uint * string :=
  match s with
  | EmptyString => (Nil, EmptyString)
  | String c s' =>
      match digitOf c with
      | Some d => let (ds, rest) := parseDigits s' in (d ds, rest)
      | None => (Nil, s)
      end
  end.

(** A fraction or an exponent follows the integer part. *)
Definition startsFraction (s : string) : bool :=
  match s with
  | String c _ => Ascii.eqb c "." || Ascii.eqb c "e" || Ascii.eqb c "E"
  | EmptyString => false
  end.

(** A JSON number: an optional minus sign, then [0] or a digit string with
    no leading zero. [-0] is the negative zero. A numeral beyond the safe
    integers is read by JavaScript as the nearest Number, which is not the
    integer written. *)
Definition parseNumber (s : string) : result (jsval * string) :=
  let (negative, s1) :=
    match s with
    | String c s' => if Ascii.eqb c "-" then (true, s') else (false, s)
    | EmptyString => (false, s)
    end in
  let (ds, rest) := parseDigits s1 in
  match ds with
  | Nil => Throw SyntaxError
  | D0 (D0 _ | D1 _ | D2 _ | D3 _ | D4 _ | D5 _ | D6 _ | D7 _ | D8 _ | D9 _) =>
      Throw SyntaxError
  | _ =>
      if startsFraction rest then Unmodelled
      else
        let n := Z.of_int (if negative then Neg ds else Pos ds) in
        if negative && (n =? 0) then Ok (VNegZero, rest)
        else if isSafeInteger n then Ok (VNum n, rest)
        else Unmodelled
  end.

Definition hexValue (c : ascii) : option nat :=
  let n := nat_of_ascii c in
  if (48 <=? n)%nat && (n <=? 57)%nat then Some (n - 48)%nat
  else if (65 <=? n)%nat && (n <=? 70)%nat then Some (n - 55)%nat
  else if (97 <=? n)%nat && (n <=? 102)%nat then Some (n - 87)%nat
  else None.

(** The four hexadecimal digits of a [\u] escape. *)
Definition hex4 (a b c d : ascii) : option nat :=
  match hexValue a, hexValue b, hexValue c, hexValue d with
  | Some x, Some y, Some z, Some w =>
      Some (((x * 16 + y) * 16 + z) * 16 + w)%nat
  | _, _, _, _ => None
  end.

Definition consChar (c : ascii) (r : result (string * string))
  : result (string * string) :=
  '(str, rest) ← r; Ok (String c str, rest).

(** The characters of a string literal after its opening quote, up to and
    including the closing quote. *)
Fixpoint parseChars (s : string) : result (string * string) :=
  match s with
  | EmptyString => Throw SyntaxError
  | String c s' =>
      if Ascii.eqb c quote then Ok (EmptyString, s')
      else if Ascii.eqb c backslash then
        match s' with
        | EmptyString => Throw SyntaxError
        | String e s'' =>
            if Ascii.eqb e quote then consChar quote (parseChars s'')
            else if Ascii.eqb e backslash then consChar backslash (parseChars s'')
            else if Ascii.eqb e "/" then consChar "/" (parseChars s'')
            else if Ascii.eqb e "b" then consChar "008" (parseChars s'')
            else if Ascii.eqb e "f" then consChar "012" (parseChars s'')
            else if Ascii.eqb e "n" then consChar "010" (parseChars s'')
            else if Ascii.eqb e "r" then consChar "013" (parseChars s'')
            else if Ascii.eqb e "t" then consChar "009" (parseChars s'')
            else if Ascii.eqb e "u" then
              match s'' with
              | String h1 (String h2 (String h3 (String h4 s3))) =>
                  match hex4 h1 h2 h3 h4 with
                  | Some n =>
                      if (n <? 256)%nat
                      then consChar (ascii_of_nat n) (parseChars s3)
                      else Unmodelled
                  | None => Throw SyntaxError
                  end
              | _ => Throw SyntaxError
              end
            else Throw SyntaxError
        end
      else if (nat_of_ascii c <? 32)%nat then Throw SyntaxError
      else consChar c (parseChars s')
  end.

(** Defining a property on the object being built: a repeated key keeps
    its place and takes the later value. *)
Fixpoint setProperty (k : string) (v : jsval) (l : list (string * jsval))
  : list (string * jsval) :=
  match l with
  | [] => [(k, v)]
  | (k', v') :: l' =>
      if String.eqb k' k then (k', v) :: l' else (k', v') :: setProperty k v l'
  end.

Definition buildObject (members : list (string * jsval)) : jsval :=
  VObj (fold_left (fun o p => setProperty (fst p) (snd p) o) members []).

Definition isNumberStart (c : ascii) : bool :=
  Ascii.eqb c "-" || match digitOf c with Some _ => true | None => false end.

(** Recursive descent. Every call takes one unit of [fuel]; running out of
    it is reported as [Unmodelled]. [parseElements] reads the elements of
    an array after its opening bracket, [parseMembers] the members of an
    object after its opening brace, each up to and including the closing
    one. *)
Fixpoint parseValue (fuel : nat) (s : string) : result (jsval * string) :=
  match fuel with
  | O => Unmodelled
  | S fuel' =>
      match skipWhiteSpace s with
      | EmptyString => Throw SyntaxError
      | String c s' as s0 =>
          if Ascii.eqb c quote then
            '(str, rest) ← parseChars s'; Ok (VStr str, rest)
          else if Ascii.eqb c "[" then
            match stripPrefix "]" (skipWhiteSpace s') with
            | Some rest => Ok (VArr [], rest)
            | None => '(l, rest) ← parseElements fuel' s'; Ok (VArr l, rest)
            end
          else if Ascii.eqb c "{" then
            match stripPrefix "}" (skipWhiteSpace s') with
            | Some rest => Ok (VObj [], rest)
            | None => '(l, rest) ← parseMembers fuel' s'; Ok (buildObject l, rest)
            end
          else if isNumberStart c then parseNumber s0
          else
            match stripPrefix "null" s0 with
            | Some rest => Ok (VNull, rest)
            | None =>
                match stripPrefix "true" s0 with
                | Some rest => Ok (VBool true, rest)
                | None =>
                    match stripPrefix "false" s0 with
                    | Some rest => Ok (VBool false, rest)
                    | None => Throw SyntaxError
                    end
                end
            end
      end
  end
with parseElements (fuel : nat) (s : string) : result (list jsval * string) :=
  match fuel with
  | O => Unmodelled
  | S fuel' =>
      '(v, s1) ← parseValue fuel' s;
      match skipWhiteSpace s1 with
      | EmptyString => Throw SyntaxError
      | String c s2 =>
          if Ascii.eqb c "," then
            '(l, rest) ← parseElements fuel' s2; Ok (v :: l, rest)
          else if Ascii.eqb c "]" then Ok ([v], s2)
          else Throw SyntaxError
      end
  end
with parseMembers (fuel : nat) (s : string)
  : result (list (string * jsval) * string) :=
  match fuel with
  | O => Unmodelled
  | S fuel' =>
      match skipWhiteSpace s with
      | EmptyString => Throw SyntaxError
      | String q s0 =>
          if Ascii.eqb q quote then
            '(k, s1) ← parseChars s0;
            match skipWhiteSpace s1 with
            | EmptyString => Throw SyntaxError
            | String c s2 =>
                if Ascii.eqb c ":" then
                  '(v, s3) ← parseValue fuel' s2;
                  match skipWhiteSpace s3 with
                  | EmptyString => Throw SyntaxError
                  | String d s4 =>
                      if Ascii.eqb d "," then
                        '(l, rest) ← parseMembers fuel' s4; Ok ((k, v) :: l, rest)
                      else if Ascii.eqb d "}" then Ok ([(k, v)], s4)
                      else Throw SyntaxError
                  end
                else Throw SyntaxError
            end
          else Throw SyntaxError
      end
  end.

(** [JSON.parse(text)]: one value, white space around it, nothing else.
    The fuel is twice the length of the text and two more, since of any two
    nested calls at least one consumes a character; that it suffices for
    every text [JSON.stringify] writes is proved below. *)
Definition parse (text : string) : result jsval :=
  '(v, rest) ← parseValue (2 * String.length text + 2) text;
  match skipWhiteSpace rest with
  | EmptyString => Ok v
  | String _ _ => Throw SyntaxError
  end.

End JSON.

(** What JSON keeps of a value that [callToJSON] has left, that is, what
    [JSON.parse] makes of the text [serialize] writes for it ([undefined]
    when it writes none): a non-finite number becomes [null] and the
    negative zero [0]; every element of an array and every property value
    of an object goes through [callToJSON] first; an element that then is
    [undefined] or a function becomes [null], and a property whose value
    then is [undefined] or a function is dropped, so that reading it gives
    [undefined]. *)
Fixpoint jsonImage (v : jsval) : jsval :=
  match v with
  | VFunction _ => VUndefined
  | VNaN | VInfinity _ => VNull
  | VNegZero => VNum 0
  | VArr l =>
      VArr (map (fun x => match JSON.callToJSON x with
                          | VUndefined | VFunction _ => VNull
                          | _ => jsonImage (JSON.callToJSON x)
                          end) l)
  | VObj l =>
      JSON.buildObject
        ((fix image (l : list (string * jsval)) : list (string * jsval) :=
            match l with
            | [] => []
            | (k, x) :: l' =>
                match JSON.callToJSON x with
                | VUndefined | VFunction _ => image l'
                | _ => (k, jsonImage (JSON.callToJSON x)) :: image l'
                end
            end) l)
  | _ => v
  end.

(** What a value is read back as after [JSON.stringify] and [JSON.parse]. *)
Definition readBack (v : jsval) : jsval := jsonImage (JSON.callToJSON v).

(** Definitions that the proofs about [JSON.parse] use. *)
Module JSONFacts.

(** The text of a value inside an array, once [callToJSON] is done: its
    serialisation, [null] when it has none. *)
Definition ser (v : jsval) : string := default "null" (JSON.serialize v).

(** The text of one member of an object. *)
Definition memberText (p : string * jsval) : string :=
  JSON.QuoteJSONString (fst p) +++ ":" +++ ser (snd p).

(** A value for which [serialize] has a text. *)
Definition hasText (v : jsval) : bool :=
  match v with
  | VUndefined | VFunction _ => false
  | _ => true
  end.

(** The elements of an array as [serialize] takes them. *)
Definition calledElements (l : list jsval) : list jsval :=
  map JSON.callToJSON l.

(** The properties of an object as [serialize] takes them, and those of
    them that it writes. *)
Definition calledMembers (l : list (string * jsval)) : list (string * jsval) :=
  map (fun p => (fst p, JSON.callToJSON (snd p))) l.

Definition definedMembers (l : list (string * jsval)) : list (string * jsval) :=
  List.filter (fun p => hasText (snd p)) (calledMembers l).

(** Fuel that suffices to parse the text of [v]. *)
Fixpoint size (v : jsval) : nat :=
  match v with
  | VArr l => S (fold_right (fun x n => S (size (JSON.callToJSON x) + n)) 0 l)%nat
  | VObj l =>
      S (fold_right
           (fun p n => if hasText (JSON.callToJSON (snd p))
                       then S (size (JSON.callToJSON (snd p)) + n) else n)
           0 l)%nat
  | _ => 1%nat
  end.

(** What may follow a value in a JSON text: nothing, a comma, or a closing
    bracket or brace. *)
Definition delimited (rest : string) : bool :=
  match rest with
  | EmptyString => true
  | String c _ => Ascii.eqb c "," || Ascii.eqb c "]" || Ascii.eqb c "}"
  end.

(** The characters a serialised value can start with. *)
Definition valueStart (c : ascii) : bool :=
  Ascii.eqb c JSON.quote || Ascii.eqb c "[" || Ascii.eqb c "{"
  || Ascii.eqb c "n" || Ascii.eqb c "t" || Ascii.eqb c "f"
  || JSON.isNumberStart c.

(** The fuel for the elements of an array, or the members of an object. *)
Definition sizeList {A} (f : A -> jsval) (l : list A) : nat :=
  fold_right (fun x n => S (size (f x) + n)) 0%nat l.

(** What the parser reads the text [ser v] as. *)
Definition elemImage (v : jsval) : jsval :=
  match v with
  | VUndefined | VFunction _ => VNull
  | _ => jsonImage v
  end.


(** [v] parses back: with enough fuel, and whatever follows it in the text,
    the parser reads the text of [v] as the image of [v]. *)
Definition parsesBack (v : jsval) : Prop :=
  forall fuel rest,
    (size v <= fuel)%nat -> delimited rest = true ->
    JSON.parseValue fuel (ser v +++ rest) = Ok (elemImage v, rest).

(** What the induction over values carries: the entries of a value whose
    integers are safe parse back, and so does what [callToJSON] makes of
    it, and what it returns if it is a function. *)
Definition parsesBackAll (v : jsval) : Prop :=
  numbersSafe v = true ->
  parsesBack v /\ parsesBack (JSON.callToJSON v) /\
  (forall r, v = VFunction r -> parsesBack r).

End JSONFacts.

(** ** [customStorage] *)

Definition EXPIRATION_TIME : Z := 24 * 60 * 60 * 1000.

(** The first property of an object with the given key. *)
Fixpoint lookupProperty (key : string) (l : list (string * jsval)) : option jsval :=
  match l with
  | [] => None
  | (k, v) :: l' => if String.eqb k key then Some v else lookupProperty key l'
  end.

(** Reading the property [key] off a value, as the destructuring
    [const { value, timestamp } = ...] does: a [TypeError] on [null] and
    [undefined]; on an object its property or [undefined]; on a function, a
    boolean, a number, a string or an array [undefined], for a [key] (such as [value]
    and [timestamp]) that their prototypes do not define. *)
Definition getProperty (v : jsval) (key : string) : result jsval :=
  match v with
  | VUndefined | VNull => Throw TypeError
  | VObj l => Ok (default VUndefined (lookupProperty key l))
  | VFunction _ | VBool _ | VNum _ | VNegZero | VNaN | VInfinity _
  | VStr _ | VArr _ => Ok VUndefined
  end.

(** A Number as the arithmetic of [getItem] needs it: an integer, [NaN] or
    an infinity. The sign of a zero plays no part in it. *)
Inductive number := Finite (n : Z) | NaN | Infinity (negative : bool).

(** The numeric coercion applied by [now - timestamp]. An object is
    converted by its [valueOf] and [toString] methods: with those of
    [Object.prototype] the result is [NaN]; an own property [toString] that
    is not a function leaves no method that yields a primitive, which is a
    [TypeError]. *)
Definition ToNumber (v : jsval) : result number :=
  match v with
  | VUndefined | VNaN => Ok NaN
  | VNull | VNegZero => Ok (Finite 0)
  | VBool b => Ok (Finite (if b then 1 else 0))
  | VNum n => Ok (Finite n)
  | VInfinity negative => Ok (Infinity negative)
  | VObj l =>
      match lookupProperty "valueOf" l, lookupProperty "toString" l with
      | Some (VFunction _), _ | _, Some (VFunction _) => Unmodelled
      | _, Some _ => Throw TypeError
      | _, None => Ok NaN
      end
  | VFunction _ | VStr _ | VArr _ => Unmodelled
  end.

(** [a - b] for an integer [a], and [a > b] for an integer [b]. A
    comparison with [NaN] is false. The difference of two safe integers is
    taken exactly: where JavaScript rounds it, beyond the safe integers,
    the rounding does not change how it compares with the time to live. *)
Definition subtract (a : Z) (b : number) : number :=
  match b with
  | Finite b => Finite (a - b)
  | NaN => NaN
  | Infinity negative => Infinity (negb negative)
  end.

Definition greaterThan (a : number) (b : Z) : bool :=
  match a with
  | Finite a => a >? b
  | NaN => false
  | Infinity negative => negb negative
  end.

(** [customStorage.getItem]. [now] is the value of [new Date().getTime()].
    The result is the returned value and [localStorage] after the call; a
    thrown exception leaves [localStorage] as it was. *)
Definition getItem (name : string) (now : Z) (localStorage : gmap string string)
  : result (jsval * gmap string string) :=
  match localStorage !! name with
  | None => Ok (VNull, localStorage)
  | Some item =>
      if String.eqb item "" then Ok (VNull, localStorage)
      else
        parsed ← JSON.parse item;
        value ← getProperty parsed "value";
        timestamp ← getProperty parsed "timestamp";
        t ← ToNumber timestamp;
        if greaterThan (subtract now t) EXPIRATION_TIME
        then Ok (VNull, delete name localStorage)
        else Ok (value, localStorage)
  end.

(** [customStorage.setItem]. The envelope is an object, so [JSON.stringify]
    returns a string. [localStorage] is taken to have room for it. *)
Definition setItem (name : string) (value : jsval) (now : Z)
           (localStorage : gmap string string) : gmap string string :=
  let text := JSON.stringify (VObj [("value", value); ("timestamp", VNum now)]) in
  <[name := default "undefined" text]> localStorage.

(** [customStorage.removeItem]. *)
Definition removeItem (name : string) (localStorage : gmap string string)
  : gmap string string :=
  delete name localStorage.


(** * The driving component ([App])

    The parts of the component that compute: the page a fetch asks for, what
    it reports about further pages, what a successful fetch hands to the
    store, and which list is shown. Network responses are parameters; the
    debounce of the search handler and the observers are timing and are not
    modelled. *)

Module App.

(** [Array.prototype.slice(start, end)]: a negative index counts from the
    end, and both are clamped to the array. *)
Definition Array_slice {A} (start final : Z) (l : list A) : list A :=
  let len := Z.of_nat (length l) in
  let k := if start <? 0 then Z.max (len + start) 0 else Z.min start len in
  let e := if final <? 0 then Z.max (len + final) 0 else Z.min final len in
  firstn (Z.to_nat (Z.max (e - k) 0)) (skipn (Z.to_nat k) l).

(** What [fetchStories] and [fetchSearchResults] resolve to. The field
    [stories] is spelled [pageStories] here ([stories] is a field of
    [UIState]). *)
Record Page := mkPage {
  pageStories : list Story;
  nextPage : Z;
  hasMore : bool
}.

(** [fetchStories({ pageParam, queryKey })], with [storyIds = queryKey[1]].
    [item id] is the story built from the response to the request for
    [id]; [Promise.all] keeps the order of the requests. *)
Definition fetchStories (item : Z -> Story) (pageParam : Z) (storyIds : list Z)
  : Page :=
  let startIndex := (pageParam - 1) * 20 in
  let endIndex := startIndex + 20 in
  let currentStoryIds := Array_slice startIndex endIndex storyIds in
  {| pageStories := map item currentStoryIds;
     nextPage := pageParam + 1;
     hasMore := (0 <? length currentStoryIds)%nat |}.

(** [getNextPageParam]: [None] is [undefined], which ends the paging. *)
Definition getNextPageParam (lastPage : Page) : option Z :=
  if hasMore lastPage then Some (nextPage lastPage) else None.

(** The pages [1 .. n] of the top stories, in order. *)
Definition firstPages (item : Z -> Story) (storyIds : list Z) (n : nat)
  : list Page :=
  map (fun k => fetchStories item (Z.of_nat (S k)) storyIds) (seq 0 n).

(** [onSuccess] of the two infinite queries: all the pages fetched so far
    are flattened and handed to the store. *)
Definition onSuccessStories (pages : list Page) (s : UIState) : UIState :=
  let newStories := flat_map pageStories pages in
  addStories newStories s.

Definition onSuccessSearch (pages : list Page) (s : UIState) : UIState :=
  let newStories := flat_map pageStories pages in
  addSearchStories newStories s.

(** The state of the component that matters here: the store and the
    [isSearching] flag of [useState(false)]. *)
Record AppState := mkAppState {
  store : UIState;
  isSearching : bool
}.

(** The body of the (debounced) [handleSearchChange]. *)
Definition handleSearchChange (query : string) (a : AppState) : AppState :=
  {| store := setSearchQuery query (store a);
     isSearching := negb (String.eqb (trim query) "") |}.

Definition storiesToRender (a : AppState) : list Story :=
  if isSearching a then searchStories (store a) else stories (store a).

(** The [enabled] options of the two infinite queries. [storyIds] is
    [undefined] ([None]) until the list of ids has arrived; an array, even
    an empty one, is truthy. *)
Definition storiesEnabled (storyIds : option (list Z)) (a : AppState) : bool :=
  negb (isSearching a) && match storyIds with Some _ => true | None => false end.

Definition searchEnabled (a : AppState) : bool :=
  isSearching a && negb (String.eqb (trim (searchQuery (store a))) "").

End App.

(** ** Notions used to state further properties *)

(** The value a call returns, or what it throws, without the store. *)
Definition returned {A B} (r : result (A * B)) : result A :=
  match r with
  | Ok (a, _) => Ok a
  | Throw e => Throw e
  | Unmodelled => Unmodelled
  end.

(** A list as the store keeps it: newest first, no id twice. *)
Definition kept (l : list Story) : Prop :=
  Sorted newestFirst l /\ List.NoDup (map id l).

(** The items of a batch that a merge into a list with the ids [seen] adds:
    those whose id is new, the first copy of each. *)
Definition fresh (seen : list Story) (batch : list Story) : list Story :=
  dedupFirst (idsOf seen) batch.

(** * Properties of the feed-state engine *)

(** ** [findIndex] and the de-duplicating [filter] *)

Lemma findIndex_from_first {A} (p : A -> bool) k pre x rest :
  p x = true ->
  (findIndex_from p k (pre ++ x :: rest) =? k + Z.of_nat (length pre))
  = negb (existsb p pre).
Proof.
  intros Hx. revert k. induction pre as [|y pre IH]; intros k; simpl.
  - rewrite Hx. apply Z.eqb_eq. lia.
  - destruct (p y) eqn:Hy; simpl.
    + apply Z.eqb_neq. lia.
    + rewrite <- IH with (k := k + 1). f_equal. lia.
Qed.

Lemma idsOf_cons x l : idsOf (x :: l) = {[id x]} ∪ idsOf l.
Proof. reflexivity. Qed.

Lemma idsOf_app l1 l2 : idsOf (l1 ++ l2) = idsOf l1 ∪ idsOf l2.
Proof. unfold idsOf. rewrite map_app. apply list_to_set_app_L. Qed.


Lemma existsb_id_idsOf i pre :
  existsb (fun s => id s =? i) pre = bool_decide (i ∈ idsOf pre).
Proof.
  induction pre as [|y pre IH]; simpl.
  - symmetry. apply bool_decide_eq_false. set_solver.
  - rewrite idsOf_cons, IH. destruct (Z.eqb_spec (id y) i) as [->|Hne]; simpl.
    + symmetry. apply bool_decide_eq_true. set_solver.
    + apply bool_decide_ext. set_solver.
Qed.

Lemma filter_from_dedupFirst l pre :
  filter_from isFirstWithId (pre ++ l) (Z.of_nat (length pre)) l
  = dedupFirst (idsOf pre) l.
Proof.
  revert pre. induction l as [|x l IH]; intros pre; simpl; [reflexivity|].
  unfold isFirstWithId at 1, findIndex.
  pose proof (findIndex_from_first (fun s => id s =? id x) 0 pre x l
                (Z.eqb_refl _)) as Hfirst.
  rewrite Z.add_0_l in Hfirst. rewrite Hfirst, existsb_id_idsOf.
  specialize (IH (pre ++ [x])).
  rewrite <- app_assoc, length_app, Nat2Z.inj_add in IH.
  change (Z.of_nat (length [x])) with 1 in IH. simpl in IH.
  rewrite IH, idsOf_app, idsOf_cons.
  destruct (decide (id x ∈ idsOf pre)) as [Hin|Hnin].
  - rewrite bool_decide_eq_true_2 by assumption. simpl.
    f_equal. set_solver.
  - rewrite bool_decide_eq_false_2 by assumption. simpl.
    do 2 f_equal. set_solver.
Qed.

(** The [filter] call of the store is the first-occurrence de-duplication. *)
Lemma Array_filter_dedupFirst l :
  Array_filter isFirstWithId l = dedupFirst ∅ l.
Proof. exact (filter_from_dedupFirst l []). Qed.

(** ** What [dedupFirst] keeps *)

Lemma dedupFirst_In seen l x :
  In x (dedupFirst seen l) <-> (id x ∉ seen) /\ firstWithId (id x) l = Some x.
Proof.
  unfold firstWithId. revert seen.
  induction l as [|y l IH]; intros seen; simpl.
  - split; [tauto | intros [_ H]; discriminate].
  - destruct (decide (id y ∈ seen)) as [Hin|Hnin].
    + rewrite IH. destruct (Z.eqb_spec (id y) (id x)) as [e|ne].
      * split; [intros [H _]; rewrite <- e in H; tauto|].
        intros [H _]. rewrite <- e in H. tauto.
      * tauto.
    + simpl. rewrite IH. destruct (Z.eqb_spec (id y) (id x)) as [e|ne].
      * split.
        -- intros [->|[H _]]; [tauto|]. exfalso. apply H. set_solver.
        -- intros [_ H]. left. congruence.
      * split.
        -- intros [->|[H1 H2]]; [congruence|]. split; [set_solver|assumption].
        -- intros [H1 H2]. right. split; [set_solver|assumption].
Qed.

Lemma idsOf_dedupFirst seen l : idsOf (dedupFirst seen l) = idsOf l ∖ seen.
Proof.
  revert seen. induction l as [|y l IH]; intros seen; simpl.
  - set_solver.
  - destruct (decide (id y ∈ seen)).
    + rewrite IH, idsOf_cons. set_solver.
    + rewrite !idsOf_cons, IH. apply set_eq. intros i.
      destruct (decide (i = id y)); set_solver.
Qed.

Lemma dedupFirst_NoDup seen l : NoDup (map id (dedupFirst seen l)).
Proof.
  revert seen. induction l as [|y l IH]; intros seen; simpl.
  - constructor.
  - destruct (decide (id y ∈ seen)); [apply IH|].
    simpl. constructor; [|apply IH].
    intros Hin. apply (elem_of_list_to_set (C := gset Z)) in Hin.
    fold (idsOf (dedupFirst ({[id y]} ∪ seen) l)) in Hin.
    rewrite idsOf_dedupFirst in Hin. set_solver.
Qed.

Lemma dedupFirst_app seen l1 l2 :
  dedupFirst seen (l1 ++ l2)
  = dedupFirst seen l1 ++ dedupFirst (idsOf l1 ∪ seen) l2.
Proof.
  revert seen. induction l1 as [|y l1 IH]; intros seen; simpl.
  - f_equal. set_solver.
  - rewrite idsOf_cons. destruct (decide (id y ∈ seen)).
    + rewrite IH. do 2 f_equal. set_solver.
    + simpl. rewrite IH. do 3 f_equal. set_solver.
Qed.

Lemma dedupFirst_fixed seen l :
  NoDup (map id l) -> idsOf l ## seen -> dedupFirst seen l = l.
Proof.
  revert seen. induction l as [|y l IH]; intros seen Hnd Hdisj; simpl.
  - reflexivity.
  - apply NoDup_cons in Hnd as [Hy Hnd]. rewrite idsOf_cons in Hdisj.
    destruct (decide (id y ∈ seen)); [set_solver|].
    f_equal. apply IH; [assumption|].
    assert (id y ∉ idsOf l).
    { unfold idsOf. rewrite elem_of_list_to_set. exact Hy. }
    set_solver.
Qed.

Lemma dedupFirst_seen seen l : idsOf l ⊆ seen -> dedupFirst seen l = [].
Proof.
  revert seen. induction l as [|y l IH]; intros seen Hsub; simpl.
  - reflexivity.
  - rewrite idsOf_cons in Hsub.
    destruct (decide (id y ∈ seen)); [apply IH|]; set_solver.
Qed.

(** ** The stable sort *)

Lemma sort_insert_Permutation {A} (cmp : A -> A -> Z) x l :
  Permutation (sort_insert cmp x l) (x :: l).
Proof.
  induction l as [|y l IH]; simpl; [reflexivity|].
  destruct (cmp x y <=? 0); [reflexivity|].
  rewrite IH. apply perm_swap.
Qed.

Lemma Array_sort_Permutation {A} (cmp : A -> A -> Z) l :
  Permutation (Array_sort cmp l) l.
Proof.
  induction l as [|x l IH]; simpl; [reflexivity|].
  rewrite sort_insert_Permutation. constructor. exact IH.
Qed.

Lemma sort_insert_Sorted x l :
  Sorted newestFirst l -> Sorted newestFirst (sort_insert byTimeDesc x l).
Proof.
  induction 1 as [|y l Hs IH Hhd]; simpl.
  - repeat constructor.
  - unfold byTimeDesc at 1. destruct (Z.leb_spec (time y - time x) 0) as [Hle|Hgt].
    + constructor; [constructor; assumption|]. constructor. unfold newestFirst. lia.
    + constructor; [exact IH|].
      destruct l as [|z l]; simpl.
      * constructor. unfold newestFirst. lia.
      * destruct (byTimeDesc x z <=? 0).
        -- constructor. unfold newestFirst. lia.
        -- constructor. inversion Hhd; assumption.
Qed.

Lemma Array_sort_Sorted l : Sorted newestFirst (Array_sort byTimeDesc l).
Proof.
  induction l as [|x l IH]; simpl; [constructor|].
  apply sort_insert_Sorted, IH.
Qed.

(** Insertion passes only stories that are strictly newer than [x], so [x]
    lands in front of every story of its own creation time. *)
Lemma sort_insert_createdAt t x l :
  createdAt t (sort_insert byTimeDesc x l) = createdAt t (x :: l).
Proof.
  unfold createdAt. induction l as [|y l IH]; simpl; [reflexivity|].
  unfold byTimeDesc at 1. destruct (Z.leb_spec (time y - time x) 0) as [Hle|Hgt].
  - reflexivity.
  - simpl in *. rewrite IH.
    destruct (Z.eqb_spec (time x) t), (Z.eqb_spec (time y) t);
      try reflexivity; lia.
Qed.

Lemma Array_sort_createdAt t l :
  createdAt t (Array_sort byTimeDesc l) = createdAt t l.
Proof.
  induction l as [|x l IH]; simpl; [reflexivity|].
  rewrite sort_insert_createdAt. unfold createdAt in *. simpl. rewrite IH.
  reflexivity.
Qed.

(** A list that is already newest-first is left as it is. *)
Lemma Array_sort_Sorted_id l :
  Sorted newestFirst l -> Array_sort byTimeDesc l = l.
Proof.
  induction 1 as [|x l Hs IH Hhd]; simpl; [reflexivity|].
  rewrite IH. destruct Hhd as [|y l Hxy]; simpl; [reflexivity|].
  unfold byTimeDesc, newestFirst in *.
  destruct (Z.leb_spec (time y - time x) 0); [reflexivity|lia].
Qed.

Lemma Permutation_idsOf l1 l2 : Permutation l1 l2 -> idsOf l1 = idsOf l2.
Proof.
  intros H. unfold idsOf. apply set_eq. intros i.
  rewrite !elem_of_list_to_set. rewrite H. reflexivity.
Qed.

(** ** Merging a batch *)

Lemma mergeStories_dedupFirst existing batch :
  mergeStories existing batch
  = Array_sort byTimeDesc (dedupFirst ∅ (existing ++ batch)).
Proof. unfold mergeStories. rewrite Array_filter_dedupFirst. reflexivity. Qed.

Lemma mergeStories_In existing batch x :
  In x (mergeStories existing batch)
  <-> firstWithId (id x) (existing ++ batch) = Some x.
Proof.
  rewrite mergeStories_dedupFirst.
  rewrite <- !list_elem_of_In, Array_sort_Permutation, !list_elem_of_In.
  rewrite dedupFirst_In. split; [tauto|]. split; [set_solver|assumption].
Qed.

Lemma firstWithId_app_l i l1 l2 x :
  firstWithId i l1 = Some x -> firstWithId i (l1 ++ l2) = Some x.
Proof.
  unfold firstWithId. induction l1 as [|y l1 IH]; simpl; [discriminate|].
  destruct (id y =? i); auto.
Qed.

Lemma mergeStories_NoDup existing batch :
  NoDup (map id (mergeStories existing batch)).
Proof.
  rewrite mergeStories_dedupFirst.
  rewrite Array_sort_Permutation. apply dedupFirst_NoDup.
Qed.

Lemma mergeStories_Sorted existing batch :
  Sorted newestFirst (mergeStories existing batch).
Proof. apply Array_sort_Sorted. Qed.

Lemma idsOf_mergeStories existing batch :
  idsOf (mergeStories existing batch) = idsOf existing ∪ idsOf batch.
Proof.
  rewrite mergeStories_dedupFirst.
  rewrite (Permutation_idsOf _ _ (Array_sort_Permutation _ _)).
  rewrite idsOf_dedupFirst, idsOf_app. set_solver.
Qed.

(** Merging the batch that was just merged changes nothing. *)
Lemma mergeStories_again existing batch :
  mergeStories (mergeStories existing batch) batch = mergeStories existing batch.
Proof.
  set (m := mergeStories existing batch).
  rewrite (mergeStories_dedupFirst m batch), dedupFirst_app.
  rewrite dedupFirst_fixed by (try apply mergeStories_NoDup; set_solver).
  rewrite dedupFirst_seen.
  - rewrite app_nil_r. apply Array_sort_Sorted_id, mergeStories_Sorted.
  - unfold m. rewrite idsOf_mergeStories. set_solver.
Qed.

Lemma Sorted_lookup_adjacent {A} (R : A -> A -> Prop) (l : list A) (i : nat) a b :
  Sorted R l -> l !! i = Some a -> l !! S i = Some b -> R a b.
Proof.
  intros Hs. revert i. induction Hs as [|x l Hs IH Hhd]; intros i Ha Hb.
  - discriminate.
  - destruct i as [|i]; simpl in *.
    + injection Ha as ->. destruct Hhd as [|y l Hxy]; [discriminate|].
      simpl in Hb. injection Hb as ->. exact Hxy.
    + eapply IH; eassumption.
Qed.

(** The scenario of the specification: two merges into the primary feed. *)
Example merge_scenario :
  let s1 := addStories [mkStory 5 "e" "" 0 "" 100; mkStory 3 "c" "" 0 "" 200]
                       initialState in
  let s2 := addStories [mkStory 3 "c" "" 0 "" 200; mkStory 7 "g" "" 0 "" 300] s1 in
  map id (stories s1) = [3; 5] /\ page s1 = 1 /\ map id (stories s2) = [7; 3; 5].
Proof. vm_compute. auto. Qed.

(** C1. Merging concatenates the batch after the existing items, removes
    duplicate ids keeping the first occurrence in the concatenated order, and
    sorts. Both merging actions store [mergeStories]; the [filter]/[findIndex]
    expression of the source equals the first-occurrence de-duplication
    [dedupFirst]; an item is in the merged list exactly when it is the first
    item of the concatenation carrying its id; so an existing item (the first
    existing one with its id) survives with its fields whatever the batch
    holds under that id, and is the only item with that id. In particular an
    existing item with id 1 and score 10 survives a batch item with id 1 and
    score 99. *)
Theorem mergeBatch_first_occurrence_wins :
  forall (s : UIState) (batch : list Story),
    stories (addStories batch s) = mergeStories (stories s) batch /\
    searchStories (addSearchStories batch s) = mergeStories (searchStories s) batch /\
    (forall existing : list Story,
        mergeStories existing batch
        = Array_sort byTimeDesc (dedupFirst ∅ (existing ++ batch)) /\
        (forall x, In x (mergeStories existing batch)
                   <-> firstWithId (id x) (existing ++ batch) = Some x) /\
        (forall e, firstWithId (id e) existing = Some e ->
                   In e (mergeStories existing batch) /\
                   forall y, In y (mergeStories existing batch) ->
                             id y = id e -> y = e)) /\
    (forall t1 u1 b1 c1 t2 u2 b2 c2,
        mergeStories [mkStory 1 t1 u1 10 b1 c1] [mkStory 1 t2 u2 99 b2 c2]
        = [mkStory 1 t1 u1 10 b1 c1]).
Proof.
  intros s batch. split; [reflexivity|]. split; [reflexivity|]. split.
  - intros existing. split; [apply mergeStories_dedupFirst|].
    split; [apply mergeStories_In|].
    intros e He. pose proof (firstWithId_app_l _ _ batch _ He) as He'. split.
    + apply mergeStories_In. exact He'.
    + intros y Hy Hid. apply mergeStories_In in Hy. rewrite Hid in Hy. congruence.
  - intros. reflexivity.
Qed.

Lemma mergeBatch_first_occurrence_wins_witness :
  let old := mkStory 1 "old" "u" 10 "a" 50 in
  let new := mkStory 1 "new" "v" 99 "b" 60 in
  let s := {| searchQuery := ""; stories := [old]; searchStories := [];
              page := 1; searchPage := 1 |} in
  In old (stories (addStories [new] s)) /\
  forall y, In y (stories (addStories [new] s)) -> id y = 1 -> score y = 10.
Proof.
  intros old new s.
  destruct (mergeBatch_first_occurrence_wins s [new]) as (Hst & _ & Hm & _).
  destruct (Hm [old]) as (_ & _ & Hsurv).
  destruct (Hsurv old eq_refl) as [Hin Huniq].
  rewrite Hst. split; [exact Hin|].
  intros y Hy Hid. rewrite (Huniq y Hy Hid). reflexivity.
Defined.

(** C2. Merging the same batch a second time leaves the state as the first
    merge left it (hence the same item set), and after a merge no two items
    of the merged collection share an id. This holds from every state. *)
Theorem mergeBatch_idempotent_no_duplicate_ids :
  forall (t : UIState) (X : list Story),
    addStories X (addStories X t) = addStories X t /\
    addSearchStories X (addSearchStories X t) = addSearchStories X t /\
    List.NoDup (map id (stories (addStories X t))) /\
    List.NoDup (map id (searchStories (addSearchStories X t))).
Proof.
  intros t X. unfold addStories, addSearchStories; simpl.
  rewrite !mergeStories_again.
  repeat split; apply NoDup_ListNoDup, mergeStories_NoDup.
Qed.

(** C3. After a merge the list is sorted newest first: every adjacent pair
    [(a, b)] has [time a >= time b]; and the sort is stable: the items of any
    one creation time are in the order the de-duplication step left them
    in. *)
Theorem mergeBatch_sorted_stable :
  forall (s : UIState) (batch : list Story),
    (Sorted newestFirst (stories (addStories batch s)) /\
     (forall (i : nat) a b,
         stories (addStories batch s) !! i = Some a ->
         stories (addStories batch s) !! S i = Some b ->
         time a >= time b) /\
     (forall t,
         createdAt t (stories (addStories batch s))
         = createdAt t (Array_filter isFirstWithId (stories s ++ batch)))) /\
    (Sorted newestFirst (searchStories (addSearchStories batch s)) /\
     (forall (i : nat) a b,
         searchStories (addSearchStories batch s) !! i = Some a ->
         searchStories (addSearchStories batch s) !! S i = Some b ->
         time a >= time b) /\
     (forall t,
         createdAt t (searchStories (addSearchStories batch s))
         = createdAt t (Array_filter isFirstWithId (searchStories s ++ batch)))).
Proof.
  intros s batch. simpl.
  split; (split; [apply mergeStories_Sorted|]; split;
          [intros i a b; apply (Sorted_lookup_adjacent newestFirst), mergeStories_Sorted
          |intros t; apply Array_sort_createdAt]).
Qed.

Lemma mergeBatch_sorted_stable_witness :
  let x := mkStory 1 "x" "" 0 "" 100 in
  let y := mkStory 2 "y" "" 0 "" 100 in
  let z := mkStory 3 "z" "" 0 "" 200 in
  stories (addStories [y; z; x] (addStories [x] initialState)) = [z; x; y] /\
  time z >= time x /\ time x >= time y.
Proof.
  intros x y z. split; [reflexivity|].
  destruct (mergeBatch_sorted_stable (addStories [x] initialState) [y; z; x])
    as [(_ & Hadj & _) _].
  split; [apply (Hadj 0%nat)|apply (Hadj 1%nat)]; reflexivity.
Defined.

(** ** Changing the query, and the cursors *)

Lemma setSearchQuery_same q s : q = searchQuery s -> setSearchQuery q s = s.
Proof.
  intros ->. unfold setSearchQuery. rewrite String.eqb_refl. reflexivity.
Qed.

Lemma setSearchQuery_other q s :
  q <> searchQuery s ->
  setSearchQuery q s
  = {| searchQuery := q; stories := stories s; searchStories := [];
       page := page s; searchPage := 1 |}.
Proof.
  intros Hne. unfold setSearchQuery.
  destruct (String.eqb_spec q (searchQuery s)); [contradiction|reflexivity].
Qed.

(** C4. [setSearchQuery] with the current query changes nothing; with a
    different query it stores the query, empties the search list and sets the
    search cursor to 1, and leaves the primary list and cursor as they
    were. *)
Theorem setQuery_noop_or_reset :
  forall (s : UIState) (newQuery : string),
    (newQuery = searchQuery s -> setSearchQuery newQuery s = s) /\
    (newQuery <> searchQuery s ->
     searchQuery (setSearchQuery newQuery s) = newQuery /\
     searchStories (setSearchQuery newQuery s) = [] /\
     searchPage (setSearchQuery newQuery s) = 1 /\
     stories (setSearchQuery newQuery s) = stories s /\
     page (setSearchQuery newQuery s) = page s).
Proof.
  intros s q. split.
  - apply setSearchQuery_same.
  - intros Hne. rewrite (setSearchQuery_other _ _ Hne). simpl. auto.
Qed.

Lemma setQuery_noop_or_reset_witness :
  let x := mkStory 1 "x" "" 0 "" 100 in
  let s := {| searchQuery := "foo"; stories := [x]; searchStories := [x];
              page := 4; searchPage := 3 |} in
  setSearchQuery "foo" s = s /\
  searchStories (setSearchQuery "bar" s) = [] /\
  searchPage (setSearchQuery "bar" s) = 1 /\
  stories (setSearchQuery "bar" s) = [x] /\
  page (setSearchQuery "bar" s) = 4.
Proof.
  intros x s. destruct (setQuery_noop_or_reset s "foo") as [Hsame _].
  destruct (setQuery_noop_or_reset s "bar") as [_ Hother].
  split; [apply Hsame; reflexivity|].
  destruct Hother as (_ & H1 & H2 & H3 & H4); [discriminate|]. auto.
Defined.

(** C5, as the specification states it, fails: the store has no action that
    advances a cursor. [setPage] stores the page number it is given, so from
    the reachable state with cursor 5 the call [setPage 3] neither adds 1
    nor keeps the cursor from decreasing, and the result is not a reset to 1
    either. The same holds for [setSearchPage]. *)
Lemma advancePage_counterexample :
  let s := step (SetSearchPage 5) (step (SetPage 5) initialState) in
  reachable s /\
  page s = 5 /\ searchPage s = 5 /\
  page (step (SetPage 3) s) = 3 /\
  searchPage (step (SetSearchPage 3) s) = 3 /\
  ~ (forall (s : UIState) (p : Z),
        reachable s -> page (setPage p s) = page s + 1) /\
  ~ (forall (s : UIState) (a : Action),
        reachable s -> page s <= page (step a s) \/ page (step a s) = 1) /\
  ~ (forall (s : UIState) (a : Action),
        reachable s ->
        searchPage s <= searchPage (step a s) \/ searchPage (step a s) = 1).
Proof.
  intros s.
  assert (Hs : reachable s) by (repeat constructor).
  split; [exact Hs|]. do 4 (split; [reflexivity|]).
  split; [|split].
  - intros H. specialize (H s 3 Hs). discriminate.
  - intros H. destruct (H s (SetPage 3) Hs) as [H'|H']; simpl in H'; lia.
  - intros H. destruct (H s (SetSearchPage 3) Hs) as [H'|H']; simpl in H'; lia.
Qed.

(** C5, amended. [setPage p] sets the primary cursor to exactly [p] and
    [setSearchPage p] the search cursor to exactly [p]; so a caller that
    passes the current cursor plus one advances it by exactly 1. No other
    action changes the primary cursor. The search cursor is otherwise changed
    only by [setSearchQuery] with a query different from the current one,
    which resets it to 1. Merging and clearing a list leave both cursors as
    they were. *)
Theorem cursor_set_by_caller :
  forall (s : UIState) (a : Action),
    page (step a s)
    = match a with SetPage p => p | _ => page s end /\
    searchPage (step a s)
    = match a with
      | SetSearchPage p => p
      | SetSearchQuery q => if String.eqb q (searchQuery s) then searchPage s else 1
      | _ => searchPage s
      end /\
    page (setPage (page s + 1) s) = page s + 1 /\
    searchPage (setSearchPage (searchPage s + 1) s) = searchPage s + 1.
Proof.
  intros s a. repeat split; try reflexivity.
  - destruct a; simpl; try reflexivity.
    unfold setSearchQuery. destruct (String.eqb query (searchQuery s)); reflexivity.
  - destruct a; simpl; try reflexivity.
    unfold setSearchQuery. destruct (String.eqb query (searchQuery s)); reflexivity.
Qed.

(** C9. The query is compared as it is, untrimmed: a new query that differs
    from the current one only by surrounding white space is a change. It
    replaces the query, empties the search list and resets the search cursor
    to 1. *)
Theorem setQuery_compares_untrimmed :
  forall (s : UIState) (q' : string),
    q' <> searchQuery s ->
    trim q' = trim (searchQuery s) ->
    setSearchQuery q' s <> s /\
    searchQuery (setSearchQuery q' s) = q' /\
    searchStories (setSearchQuery q' s) = [] /\
    searchPage (setSearchQuery q' s) = 1.
Proof.
  intros s q' Hne _. rewrite (setSearchQuery_other _ _ Hne). simpl.
  split; [|auto]. intros H. apply Hne. rewrite <- H. reflexivity.
Qed.

Lemma setQuery_compares_untrimmed_witness :
  let x := mkStory 1 "x" "" 0 "" 100 in
  let s := {| searchQuery := "foo"; stories := []; searchStories := [x];
              page := 1; searchPage := 3 |} in
  (searchQuery (setSearchQuery "foo " s) = "foo " /\
   searchStories (setSearchQuery "foo " s) = [] /\
   searchPage (setSearchQuery "foo " s) = 1) /\
  (searchQuery (setSearchQuery " " initialState) = " " /\
   searchPage (setSearchQuery " " initialState) = 1).
Proof.
  intros x s. split.
  - apply (setQuery_compares_untrimmed s "foo "); [discriminate|reflexivity].
  - destruct (setQuery_compares_untrimmed initialState " ") as (_ & H1 & _ & H2);
      [discriminate|reflexivity|]. auto.
Defined.

(** C10. A merge touches the list of its own mode only: [addStories] leaves
    the search list, both cursors and the query as they were, and
    [addSearchStories] leaves the primary list, both cursors and the query as
    they were. *)
Theorem mergeBatch_frame :
  forall (s : UIState) (batch : list Story),
    (searchStories (addStories batch s) = searchStories s /\
     searchPage (addStories batch s) = searchPage s /\
     page (addStories batch s) = page s /\
     searchQuery (addStories batch s) = searchQuery s) /\
    (stories (addSearchStories batch s) = stories s /\
     page (addSearchStories batch s) = page s /\
     searchPage (addSearchStories batch s) = searchPage s /\
     searchQuery (addSearchStories batch s) = searchQuery s).
Proof. intros s batch. simpl. auto 10. Qed.

(** * Properties of the expiring key-value store *)

(** ** Strings *)

Lemma append_cons x (a b : string) : String x a +++ b = String x (a +++ b).
Proof. reflexivity. Qed.

Lemma append_nil (b : string) : EmptyString +++ b = b.
Proof. reflexivity. Qed.

Lemma append_assoc (a b c : string) : (a +++ b) +++ c = a +++ (b +++ c).
Proof.
  induction a as [|x a IH]; [reflexivity|]. rewrite !append_cons, IH. reflexivity.
Qed.

Lemma append_length (a b : string) :
  String.length (a +++ b) = (String.length a + String.length b)%nat.
Proof.
  induction a as [|x a IH]; [reflexivity|]. rewrite append_cons. simpl.
  rewrite IH. reflexivity.
Qed.

(** ** Numbers *)

Import JSON JSONFacts.

Lemma delimited_not_digit c rest :
  delimited (String c rest) = true ->
  digitOf c = None /\ startsFraction (String c rest) = false
  /\ isJSONSpace c = false.
Proof.
  unfold delimited. intros H.
  destruct (Ascii.eqb_spec c ","%char) as [->|_]; [repeat split|].
  destruct (Ascii.eqb_spec c "]"%char) as [->|_]; [repeat split|].
  destruct (Ascii.eqb_spec c "}"%char) as [->|_]; [repeat split|discriminate].
Qed.

Lemma parseDigits_string_of_uint d rest :
  match rest with String c _ => digitOf c = None | EmptyString => True end ->
  parseDigits (NilEmpty.string_of_uint d +++ rest) = (d, rest).
Proof.
  intros Hrest. induction d; simpl; try (rewrite IHd; reflexivity).
  destruct rest as [|c rest]; simpl; [reflexivity|]. rewrite Hrest. reflexivity.
Qed.

(** The decimal digits of a positive number do not start with a zero. *)
Lemma to_uint_no_leading_zero p d : Pos.to_uint p <> D0 d.
Proof.
  intros H.
  assert (Hnorm : unorm (Pos.to_uint p) = Pos.to_uint p).
  { rewrite <- (DecimalPos.Unsigned.to_of (Pos.to_uint p)).
    rewrite DecimalPos.Unsigned.of_to. reflexivity. }
  rewrite H, unorm_D0 in Hnorm.
  destruct d;
    [apply (DecimalPos.Unsigned.to_uint_nonzero p); exact H | ..];
    match type of Hnorm with
    | unorm ?u = _ =>
        pose proof (nb_digits_unorm u ltac:(discriminate)) as Hlen
    end;
    rewrite Hnorm in Hlen; simpl in Hlen; lia.
Qed.

(** Case analysis on the first digit of a positive number: it is not zero. *)
Ltac digits_of_positive p E :=
  let Hz := fresh in
  let Hnil := fresh in
  pose proof (to_uint_no_leading_zero p) as Hz;
  pose proof (DecimalPos.Unsigned.to_uint_nonnil p) as Hnil;
  destruct (Pos.to_uint p) eqn:E;
  try contradiction; try (exfalso; eapply Hz; reflexivity).

Lemma string_of_uint_head d :
  d <> Nil ->
  exists c s, NilEmpty.string_of_uint d = String c s
              /\ Ascii.eqb c "-" = false /\ isNumberStart c = true
              /\ isJSONSpace c = false.
Proof.
  intros Hd. destruct d; [contradiction| ..]; simpl; eexists _, _;
    (split; [reflexivity|]); repeat split.
Qed.

Lemma parseNumber_NumberToString n rest :
  isSafeInteger n = true -> delimited rest = true ->
  parseNumber (NumberToString n +++ rest) = Ok (VNum n, rest).
Proof.
  intros Hsafe Hrest.
  assert (Hdig : match rest with
                 | String c _ => digitOf c = None
                 | EmptyString => True
                 end).
  { destruct rest as [|c rest]; [exact I|]. apply (delimited_not_digit c rest Hrest). }
  assert (Hfrac : startsFraction rest = false).
  { destruct rest as [|c rest]; [reflexivity|]. apply (delimited_not_digit c rest Hrest). }
  unfold parseNumber, NumberToString.
  destruct n as [|p|p]; simpl Z.to_int; unfold NilEmpty.string_of_int.
  - destruct (string_of_uint_head zero ltac:(discriminate))
      as (c & s & Hs & Hc & _).
    rewrite Hs, append_cons, Hc. cbv iota.
    rewrite <- append_cons, <- Hs.
    rewrite parseDigits_string_of_uint by exact Hdig.
    rewrite Hfrac. reflexivity.
  - destruct (string_of_uint_head (Pos.to_uint p)
                (DecimalPos.Unsigned.to_uint_nonnil p)) as (c & s & Hs & Hc & _).
    rewrite Hs, append_cons, Hc. cbv iota.
    rewrite <- append_cons, <- Hs.
    rewrite parseDigits_string_of_uint by exact Hdig.
    digits_of_positive p E; rewrite Hfrac; cbv beta iota zeta; rewrite <- E;
      change (Pos (Pos.to_uint p)) with (Z.to_int (Z.pos p));
      rewrite DecimalZ.of_to, Hsafe; reflexivity.
  - rewrite append_cons. replace (Ascii.eqb "-" "-") with true by reflexivity.
    cbv iota.
    rewrite parseDigits_string_of_uint by exact Hdig.
    digits_of_positive p E; rewrite Hfrac; cbv beta iota zeta; rewrite <- E;
      change (Neg (Pos.to_uint p)) with (Z.to_int (Z.neg p));
      rewrite DecimalZ.of_to, Hsafe; reflexivity.
Qed.

Lemma NumberToString_head n :
  exists c s, NumberToString n = String c s
              /\ isNumberStart c = true /\ valueStart c = true.
Proof.
  unfold NumberToString. destruct n as [|p|p]; simpl Z.to_int.
  - eexists _, _. repeat split.
  - destruct (string_of_uint_head (Pos.to_uint p)
                (DecimalPos.Unsigned.to_uint_nonnil p)) as (c & s & Hs & _ & Hc & _).
    exists c, s. split; [exact Hs|]. split; [exact Hc|]. unfold valueStart.
    rewrite Hc. rewrite !orb_true_r. reflexivity.
  - eexists _, _. repeat split.
Qed.

(** ** String literals *)

Lemma parseChars_quoteChar c t :
  parseChars (quoteChar c +++ t) = consChar c (parseChars t).
Proof.
  destruct c as [[] [] [] [] [] [] [] []]; reflexivity.
Qed.

Lemma parseChars_quoteChars s rest :
  parseChars (quoteChars s +++ String quote rest) = Ok (s, rest).
Proof.
  induction s as [|c s IH].
  - reflexivity.
  - simpl quoteChars. rewrite append_assoc, parseChars_quoteChar, IH. reflexivity.
Qed.


(** ** Unfolding the parser on the first character *)

Lemma isNumberStart_facts c :
  isNumberStart c = true ->
  isJSONSpace c = false /\ Ascii.eqb c quote = false
  /\ Ascii.eqb c "[" = false /\ Ascii.eqb c "{" = false.
Proof.
  destruct c as [[] [] [] [] [] [] [] []]; intros H; try discriminate H;
    repeat split.
Qed.

Lemma parseValue_literal f rest :
  parseValue (S f) ("null" +++ rest) = Ok (VNull, rest)
  /\ parseValue (S f) ("true" +++ rest) = Ok (VBool true, rest)
  /\ parseValue (S f) ("false" +++ rest) = Ok (VBool false, rest).
Proof. repeat split. Qed.

Lemma parseValue_number f c s :
  isNumberStart c = true ->
  parseValue (S f) (String c s) = parseNumber (String c s).
Proof.
  intros H. destruct (isNumberStart_facts c H) as (H1 & H2 & H3 & H4).
  simpl. rewrite H1, H2, H3, H4, H. reflexivity.
Qed.

Lemma parseValue_string f s :
  parseValue (S f) (String quote s)
  = '(str, rest) ← parseChars s; Ok (VStr str, rest).
Proof. reflexivity. Qed.

Lemma parseValue_array_empty f rest :
  parseValue (S f) ("[" +++ "]" +++ rest) = Ok (VArr [], rest).
Proof. reflexivity. Qed.

Lemma parseValue_array f c s :
  valueStart c = true ->
  parseValue (S f) ("[" +++ String c s)
  = '(l, rest) ← parseElements f (String c s); Ok (VArr l, rest).
Proof.
  destruct c as [[] [] [] [] [] [] [] []]; intros H; try discriminate H;
    reflexivity.
Qed.

Lemma parseValue_object_empty f rest :
  parseValue (S f) ("{" +++ "}" +++ rest) = Ok (VObj [], rest).
Proof. reflexivity. Qed.

Lemma parseValue_object f s :
  parseValue (S f) ("{" +++ String quote s)
  = '(l, rest) ← parseMembers f (String quote s); Ok (buildObject l, rest).
Proof. reflexivity. Qed.

Lemma parseElements_step f s :
  parseElements (S f) s
  = '(v, s1) ← parseValue f s;
    match skipWhiteSpace s1 with
    | EmptyString => Throw SyntaxError
    | String c s2 =>
        if Ascii.eqb c ","
        then '(l, rest) ← parseElements f s2; Ok (v :: l, rest)
        else if Ascii.eqb c "]" then Ok ([v], s2) else Throw SyntaxError
    end.
Proof. reflexivity. Qed.

Lemma parseMembers_step f s :
  parseMembers (S f) (String quote s)
  = '(k, s1) ← parseChars s;
    match skipWhiteSpace s1 with
    | EmptyString => Throw SyntaxError
    | String c s2 =>
        if Ascii.eqb c ":" then
          '(v, s3) ← parseValue f s2;
          match skipWhiteSpace s3 with
          | EmptyString => Throw SyntaxError
          | String d s4 =>
              if Ascii.eqb d ","
              then '(l, rest) ← parseMembers f s4; Ok ((k, v) :: l, rest)
              else if Ascii.eqb d "}" then Ok ([(k, v)], s4)
              else Throw SyntaxError
          end
        else Throw SyntaxError
    end.
Proof. reflexivity. Qed.

(** ** What [JSON.parse] makes of the text [JSON.stringify] writes *)

Lemma result_bind_Ok {A B} (a : A) (f : A -> result B) : Ok a ≫= f = f a.
Proof. reflexivity. Qed.

Lemma callToJSON_VObj l :
  callToJSON (VObj l)
  = match lookupProperty "toJSON" l with
    | Some (VFunction r) => r
    | _ => VObj l
    end.
Proof.
  unfold callToJSON. generalize (VObj l) as v. intros v.
  induction l as [|[k x] l IH]; [reflexivity|].
  cbn [lookupProperty]. destruct (String.eqb k "toJSON"); [|exact IH].
  destruct x; reflexivity.
Qed.

Lemma lookupProperty_In key l x :
  lookupProperty key l = Some x -> In (key, x) l.
Proof.
  induction l as [|[k y] l IH]; [discriminate|]. cbn [lookupProperty].
  destruct (String.eqb_spec k key) as [->|_].
  - intros [= ->]. left. reflexivity.
  - intros H. right. apply IH, H.
Qed.

(** Induction over values that follows [serialize]: the induction
    hypothesis is for the elements and the property values as [callToJSON]
    leaves them. *)
Lemma jsval_called_ind (Q : jsval -> Prop) :
  Q VUndefined -> (forall r, Q (VFunction r)) -> Q VNull ->
  (forall b, Q (VBool b)) -> (forall n, Q (VNum n)) ->
  Q VNegZero -> Q VNaN -> (forall negative, Q (VInfinity negative)) ->
  (forall s, Q (VStr s)) ->
  (forall l, Forall Q (calledElements l) -> Q (VArr l)) ->
  (forall l, Forall (fun p => Q (snd p)) (calledMembers l) -> Q (VObj l)) ->
  forall v, Q v.
Proof.
  intros Hundefined Hfunction Hnull Hbool Hnum Hnegzero Hnan Hinfinity Hstr
         Harr Hobj.
  enough (H : forall v, Q v /\ Q (callToJSON v)
                        /\ (forall r, v = VFunction r -> Q r))
    by (intros v; apply H).
  induction v as [|r IH| |b|n| | |negative|s|l IH|l IH] using jsval_ind;
    try solve [split; [|split]; [auto | cbn; auto | intros r' [=]]].
  - split; [apply Hfunction|]. split; [apply Hfunction|].
    intros r' [= <-]. exact (proj1 IH).
  - assert (H : Q (VArr l)).
    { apply Harr. unfold calledElements.
      induction IH as [|x l Hx Hl IHl]; [constructor|].
      constructor; [exact (proj1 (proj2 Hx))|exact IHl]. }
    split; [exact H|]. split; [exact H|]. intros r' [=].
  - assert (H : Q (VObj l)).
    { apply Hobj. unfold calledMembers.
      induction IH as [|x l Hx Hl IHl]; [constructor|].
      constructor; [exact (proj1 (proj2 Hx))|exact IHl]. }
    split; [exact H|]. split; [|intros r' [=]].
    rewrite callToJSON_VObj.
    destruct (lookupProperty "toJSON" l) as [[|r| | | | | | | | |]|] eqn:Hl;
      try exact H.
    apply lookupProperty_In in Hl. rewrite List.Forall_forall in IH.
    apply (IH _ Hl). reflexivity.
Qed.

Lemma numbersSafe_callToJSON v :
  numbersSafe v = true -> numbersSafe (callToJSON v) = true.
Proof.
  destruct v as [|r| |b|n| | |negative|s|l|l]; try (intros H; exact H).
  intros H. rewrite callToJSON_VObj.
  destruct (lookupProperty "toJSON" l) as [[|r| | | | | | | | |]|] eqn:Hl;
    try exact H.
  apply lookupProperty_In in Hl. cbn [numbersSafe] in H.
  rewrite forallb_forall in H. apply (H _ Hl).
Qed.

Lemma jsonData_callToJSON v : jsonData v = true -> callToJSON v = v.
Proof.
  destruct v as [|r| |b|n| | |negative|s|l|l]; try reflexivity.
  intros H. rewrite callToJSON_VObj.
  destruct (lookupProperty "toJSON" l) as [[|r| | | | | | | | |]|] eqn:Hl;
    try reflexivity.
  apply lookupProperty_In in Hl. cbn [jsonData] in H.
  apply andb_prop in H as [H _]. rewrite forallb_forall in H.
  specialize (H _ Hl). discriminate H.
Qed.

Lemma ser_VArr l :
  ser (VArr l) = "[" +++ joinComma (map ser (calledElements l)) +++ "]".
Proof. unfold ser, calledElements. simpl. rewrite map_map. reflexivity. Qed.

Lemma ser_VObj l :
  ser (VObj l) = "{" +++ joinComma (map memberText (definedMembers l)) +++ "}".
Proof.
  unfold ser. simpl. do 3 f_equal.
  unfold definedMembers, calledMembers.
  induction l as [|[k x] l IH]; [reflexivity|].
  cbn [map List.filter fst snd]. rewrite IH.
  destruct (callToJSON x); reflexivity.
Qed.

Lemma jsonImage_VArr l :
  jsonImage (VArr l) = VArr (map elemImage (calledElements l)).
Proof. unfold calledElements. cbn [jsonImage]. rewrite map_map. reflexivity. Qed.

Lemma jsonImage_VObj l :
  jsonImage (VObj l)
  = buildObject (map (fun p => (fst p, elemImage (snd p))) (definedMembers l)).
Proof.
  cbn [jsonImage]. f_equal. unfold definedMembers, calledMembers.
  induction l as [|[k x] l IH]; [reflexivity|].
  cbn [map List.filter fst snd]. rewrite IH.
  destruct (callToJSON x); reflexivity.
Qed.

Lemma ser_head v :
  exists c s, ser v = String c s /\ valueStart c = true.
Proof.
  destruct v as [|r| |[]|n| | |negative|s|l|l];
    try (eexists _, _; split; reflexivity).
  destruct (NumberToString_head n) as (c & s & Hs & _ & Hc). eauto.
Qed.

Lemma parseElements_ser l :
  Forall parsesBack l -> l <> [] ->
  forall fuel rest,
    (sizeList (fun x => x) l <= fuel)%nat ->
    parseElements fuel (joinComma (map ser l) +++ "]" +++ rest)
    = Ok (map elemImage l, rest).
Proof.
  induction 1 as [|x l Hx Hl IH]; intros Hne fuel rest Hfuel; [contradiction|].
  destruct fuel as [|f]; [simpl in Hfuel; lia|].
  simpl in Hfuel. rewrite parseElements_step.
  destruct l as [|y l].
  - cbn [map joinComma].
    rewrite (Hx f ("]" +++ rest)) by (try reflexivity; lia).
    reflexivity.
  - cbn [map]. change (joinComma (ser x :: ser y :: map ser l))
      with (ser x +++ String "," (joinComma (map ser (y :: l)))).
    rewrite append_assoc, append_cons.
    rewrite (Hx f) by (try reflexivity; lia).
    rewrite result_bind_Ok. cbv iota beta. simpl.
    rewrite IH; [reflexivity|discriminate|].
    unfold sizeList in *. simpl in *. lia.
Qed.

Lemma memberText_app k x rest :
  memberText (k, x) +++ rest
  = String quote (quoteChars k +++ String quote (String ":" (ser x +++ rest))).
Proof.
  unfold memberText, QuoteJSONString. cbn [fst snd].
  rewrite !append_assoc, append_cons, append_assoc. reflexivity.
Qed.

Lemma parseMembers_ser l :
  Forall (fun p => parsesBack (snd p)) l -> l <> [] ->
  forall fuel rest,
    (sizeList snd l <= fuel)%nat ->
    parseMembers fuel (joinComma (map memberText l) +++ "}" +++ rest)
    = Ok (map (fun p => (fst p, elemImage (snd p))) l, rest).
Proof.
  induction 1 as [|[k x] l Hx Hl IH]; intros Hne fuel rest Hfuel; [contradiction|].
  destruct fuel as [|f]; [simpl in Hfuel; lia|].
  simpl in Hfuel, Hx.
  destruct l as [|y l].
  - cbn [map joinComma]. rewrite memberText_app, parseMembers_step.
    rewrite parseChars_quoteChars, result_bind_Ok. cbv iota beta.
    simpl.
    rewrite (Hx f ("}" +++ rest)) by (try reflexivity; lia).
    reflexivity.
  - cbn [map]. change (joinComma (memberText (k, x) :: memberText y :: map memberText l))
      with (memberText (k, x) +++ String "," (joinComma (map memberText (y :: l)))).
    rewrite append_assoc, append_cons, memberText_app, parseMembers_step.
    rewrite parseChars_quoteChars, result_bind_Ok. cbv iota beta.
    simpl.
    rewrite (Hx f) by (try reflexivity; lia).
    rewrite result_bind_Ok. cbv iota beta. simpl.
    rewrite IH; [reflexivity|discriminate|].
    unfold sizeList in *. simpl in *. lia.
Qed.

Lemma size_pos v : (1 <= size v)%nat.
Proof. destruct v; simpl; lia. Qed.

Lemma size_VArr l : size (VArr l) = S (sizeList (fun x => x) (calledElements l)).
Proof.
  cbn [size]. f_equal. unfold sizeList, calledElements.
  induction l as [|x l IH]; [reflexivity|]. cbn [map fold_right]. rewrite IH.
  reflexivity.
Qed.

Lemma size_VObj l : size (VObj l) = S (sizeList snd (definedMembers l)).
Proof.
  cbn [size]. f_equal. unfold sizeList, definedMembers, calledMembers.
  induction l as [|[k x] l IH]; [reflexivity|].
  cbn [map List.filter fold_right fst snd]. rewrite IH.
  destruct (hasText (callToJSON x)); reflexivity.
Qed.

Lemma parsesBack_VArr l : Forall parsesBack (calledElements l) -> parsesBack (VArr l).
Proof.
  intros IH fuel rest Hfuel Hrest.
  destruct fuel as [|f]; [pose proof (size_pos (VArr l)); lia|].
  rewrite ser_VArr. rewrite size_VArr in Hfuel.
  change (elemImage (VArr l)) with (jsonImage (VArr l)). rewrite jsonImage_VArr.
  destruct (calledElements l) as [|x l'].
  - apply parseValue_array_empty.
  - rewrite !append_assoc.
    destruct (ser_head x) as (c & s & Hs & Hc).
    assert (Hj : exists s', joinComma (map ser (x :: l')) +++ "]" +++ rest
                            = String c s').
    { destruct l'; cbn [map joinComma]; rewrite Hs; eexists; reflexivity. }
    destruct Hj as [s' Hj]. rewrite Hj, (parseValue_array f c s' Hc), <- Hj.
    rewrite (parseElements_ser (x :: l') IH); [reflexivity|discriminate|lia].
Qed.

Lemma parsesBack_VObj l :
  Forall (fun p => parsesBack (snd p)) (calledMembers l) -> parsesBack (VObj l).
Proof.
  intros IH fuel rest Hfuel Hrest.
  destruct fuel as [|f]; [pose proof (size_pos (VObj l)); lia|].
  rewrite ser_VObj. rewrite size_VObj in Hfuel.
  change (elemImage (VObj l)) with (jsonImage (VObj l)).
  rewrite jsonImage_VObj.
  assert (IH' : Forall (fun p => parsesBack (snd p)) (definedMembers l)).
  { unfold definedMembers. rewrite List.Forall_forall in IH |- *.
    intros p Hp. apply IH. apply filter_In in Hp as [Hp _]. exact Hp. }
  destruct (definedMembers l) as [|[k x] l'].
  - apply parseValue_object_empty.
  - rewrite !append_assoc.
    assert (Hj : exists s', joinComma (map memberText ((k, x) :: l')) +++ "}" +++ rest
                            = String quote s').
    { destruct l'; cbn [map joinComma]; [|rewrite append_assoc];
        rewrite memberText_app; eexists; reflexivity. }
    destruct Hj as [s' Hj]. rewrite Hj, (parseValue_object f s'), <- Hj.
    rewrite (parseMembers_ser ((k, x) :: l') IH'); [reflexivity|discriminate|lia].
Qed.

(** With enough fuel the parser reads the text of a value as its image. *)
Lemma parseValue_ser v : numbersSafe v = true -> parsesBack v.
Proof.
  induction v as [|r| |b|n| | |negative|s|l IH|l IH] using jsval_called_ind;
    intros Hsafe.
  1-9: intros fuel rest Hfuel Hrest;
    (destruct fuel as [|f]; [pose proof (size_pos VNull); simpl in Hfuel; lia|]).
  - apply parseValue_literal.
  - apply parseValue_literal.
  - apply parseValue_literal.
  - destruct b; apply parseValue_literal.
  - change (ser (VNum n)) with (NumberToString n).
    destruct (NumberToString_head n) as (c & s & Hs & Hn & _).
    rewrite Hs, append_cons, (parseValue_number f c _ Hn).
    rewrite <- append_cons, <- Hs.
    apply parseNumber_NumberToString; [exact Hsafe|exact Hrest].
  - change (ser VNegZero) with (NumberToString 0).
    change (elemImage VNegZero) with (VNum 0).
    rewrite <- (parseNumber_NumberToString 0 rest eq_refl Hrest).
    change (NumberToString 0 +++ rest) with (String "0" rest).
    apply (parseValue_number f "0"). reflexivity.
  - apply parseValue_literal.
  - apply parseValue_literal.
  - change (ser (VStr s)) with (QuoteJSONString s). unfold QuoteJSONString.
    rewrite append_cons, append_assoc, append_cons, append_nil.
    rewrite parseValue_string, parseChars_quoteChars. reflexivity.
  - apply parsesBack_VArr. cbn [numbersSafe] in Hsafe.
    rewrite forallb_forall in Hsafe. unfold calledElements in *.
    rewrite List.Forall_forall in IH |- *. intros y Hy. apply (IH y Hy).
    apply in_map_iff in Hy as (x & <- & Hx).
    apply numbersSafe_callToJSON, Hsafe, Hx.
  - apply parsesBack_VObj. cbn [numbersSafe] in Hsafe.
    rewrite forallb_forall in Hsafe. unfold calledMembers in *.
    rewrite List.Forall_forall in IH |- *. intros y Hy. apply (IH y Hy).
    apply in_map_iff in Hy as (x & <- & Hx).
    apply numbersSafe_callToJSON, (Hsafe _ Hx).
Qed.

(** ** The fuel of [JSON.parse] suffices *)

Lemma append_nil_r (a : string) : a +++ "" = a.
Proof. induction a as [|x a IH]; [reflexivity|]. rewrite append_cons, IH. reflexivity. Qed.

Lemma sizeList_joinComma {A} (f : A -> jsval) (text : A -> string) (l : list A) :
  Forall (fun x => (size (f x) <= String.length (text x))%nat) l ->
  (sizeList f l <= String.length (joinComma (map text l)) + 1)%nat.
Proof.
  induction 1 as [|x l Hx Hl IH]; [simpl; lia|].
  destruct l as [|y l].
  - simpl. lia.
  - change (joinComma (map text (x :: y :: l)))
      with (text x +++ String "," (joinComma (map text (y :: l)))).
    rewrite append_length. unfold sizeList in *. simpl in *. lia.
Qed.

Lemma size_le_length v : (size v <= String.length (ser v))%nat.
Proof.
  induction v as [|r| |b|n| | |negative|s|l IH|l IH] using jsval_called_ind.
  - simpl. lia.
  - simpl. lia.
  - simpl. lia.
  - destruct b; simpl; lia.
  - destruct (NumberToString_head n) as (c & s & Hs & _).
    change (ser (VNum n)) with (NumberToString n). rewrite Hs. simpl. lia.
  - simpl. lia.
  - simpl. lia.
  - simpl. lia.
  - simpl. lia.
  - rewrite ser_VArr, size_VArr, append_cons, append_nil.
    cbn [String.length]. rewrite append_length.
    enough ((sizeList (fun x => x) (calledElements l)
             <= String.length (joinComma (map ser (calledElements l))) + 1)%nat)
      by (simpl; lia).
    apply sizeList_joinComma, IH.
  - rewrite ser_VObj, size_VObj, append_cons, append_nil.
    cbn [String.length]. rewrite append_length.
    enough ((sizeList snd (definedMembers l)
             <= String.length (joinComma (map memberText (definedMembers l))) + 1)%nat)
      by (simpl; lia).
    apply sizeList_joinComma.
    unfold definedMembers. rewrite List.Forall_forall in IH |- *.
    intros [k x] Hx. apply filter_In in Hx as [Hx _].
    specialize (IH _ Hx). simpl in IH.
    unfold memberText. cbn [fst snd]. rewrite !append_length. lia.
Qed.

Lemma serialize_hasText v : hasText v = true -> serialize v = Some (ser v).
Proof. destruct v; intros H; try discriminate H; reflexivity. Qed.

Lemma jsonImage_hasText v : hasText v = true -> elemImage v = jsonImage v.
Proof. destruct v; intros H; try discriminate H; reflexivity. Qed.

(** [JSON.parse(JSON.stringify(v))] is what [v] is read back as, for every
    value [v] that has a serialisation. *)
Lemma parse_stringify v :
  numbersSafe v = true -> hasText (callToJSON v) = true ->
  stringify v = Some (ser (callToJSON v))
  /\ parse (ser (callToJSON v)) = Ok (readBack v).
Proof.
  intros Hsafe Hv. split; [apply serialize_hasText, Hv|].
  unfold parse, readBack. pose proof (size_le_length (callToJSON v)) as Hsize.
  rewrite <- (append_nil_r (ser (callToJSON v))) at 2.
  rewrite (parseValue_ser (callToJSON v) (numbersSafe_callToJSON v Hsafe))
    by (try reflexivity; lia).
  rewrite (jsonImage_hasText _ Hv). reflexivity.
Qed.

(** ** JSON values are their own image *)

Lemma setProperty_fresh k v l :
  k ∉ map fst l -> setProperty k v l = l ++ [(k, v)].
Proof.
  induction l as [|[k' v'] l IH]; intros Hk; simpl; [reflexivity|].
  simpl in Hk. apply not_elem_of_cons in Hk as [Hne Hk].
  destruct (String.eqb_spec k' k) as [->|_]; [contradiction|].
  rewrite IH by exact Hk. reflexivity.
Qed.

Lemma buildObject_NoDup l : NoDup (map fst l) -> buildObject l = VObj l.
Proof.
  unfold buildObject. intros Hl. f_equal.
  enough (H : forall acc, NoDup (map fst (acc ++ l)) ->
                          fold_left (fun o p => setProperty (fst p) (snd p) o) l acc
                          = acc ++ l) by (apply (H [] Hl)).
  clear Hl. induction l as [|[k v] l IH]; intros acc Hnd; simpl.
  - rewrite app_nil_r. reflexivity.
  - rewrite setProperty_fresh.
    + rewrite IH; rewrite <- app_assoc; [reflexivity|exact Hnd].
    + rewrite map_app in Hnd. simpl in Hnd.
      apply NoDup_app in Hnd as (_ & Hdisj & _).
      intros Hin. apply (Hdisj k Hin). left.
Qed.

Lemma jsonData_hasText v : jsonData v = true -> hasText v = true.
Proof. destruct v; intros H; try discriminate H; reflexivity. Qed.

Lemma jsonData_numbersSafe v : jsonData v = true -> numbersSafe v = true.
Proof.
  induction v as [|r IH| |b|n| | |negative|s|l IH|l IH] using jsval_ind;
    intros Hdata; try discriminate Hdata; try reflexivity.
  - exact Hdata.
  - cbn [jsonData numbersSafe] in *. rewrite forallb_forall in Hdata |- *.
    rewrite List.Forall_forall in IH. intros x Hx. apply (IH x Hx), Hdata, Hx.
  - cbn [jsonData numbersSafe] in *. apply andb_prop in Hdata as [Hdata _].
    rewrite forallb_forall in Hdata |- *.
    rewrite List.Forall_forall in IH. intros x Hx. apply (IH x Hx), Hdata, Hx.
Qed.

Lemma jsonImage_jsonData v : jsonData v = true -> jsonImage v = v.
Proof.
  induction v as [|r IH| |b|n| | |negative|s|l IH|l IH] using jsval_ind;
    intros Hdata; try discriminate Hdata; try reflexivity.
  - rewrite jsonImage_VArr. f_equal. cbn [jsonData] in Hdata.
    unfold calledElements.
    induction IH as [|x l Hx Hl IHl]; [reflexivity|].
    cbn [forallb] in Hdata. apply andb_prop in Hdata as [Hdx Hdl].
    cbn [map]. rewrite (IHl Hdl). f_equal.
    rewrite (jsonData_callToJSON x Hdx), (jsonImage_hasText x (jsonData_hasText x Hdx)).
    apply Hx, Hdx.
  - cbn [jsonData] in Hdata. apply andb_prop in Hdata as [Hdata Hkeys].
    apply bool_decide_eq_true_1 in Hkeys. rewrite jsonImage_VObj.
    assert (Hl : map (fun p => (fst p, elemImage (snd p))) (definedMembers l) = l).
    { clear Hkeys. unfold definedMembers, calledMembers.
      induction IH as [|[k x] l Hx Hl IHl]; [reflexivity|].
      cbn [forallb snd] in Hdata. apply andb_prop in Hdata as [Hdx Hdl].
      cbn [map List.filter fst snd].
      rewrite (jsonData_callToJSON x Hdx), (jsonData_hasText x Hdx).
      cbn [map fst snd]. rewrite (IHl Hdl). do 2 f_equal.
      rewrite (jsonImage_hasText x (jsonData_hasText x Hdx)).
      apply Hx, Hdx. }
    rewrite Hl. apply buildObject_NoDup, Hkeys.
Qed.

Lemma readBack_jsonData v : jsonData v = true -> readBack v = v.
Proof.
  intros H. unfold readBack. rewrite (jsonData_callToJSON v H).
  apply jsonImage_jsonData, H.
Qed.

(** ** Reading and writing through [customStorage] *)

(** The text [setItem] stores for the envelope [{ value, timestamp: now }],
    and what [getItem] reads off it. *)
Lemma setItem_lookup name v T (ls : gmap string string) :
  setItem name v T ls !! name
  = Some (ser (VObj [("value", v); ("timestamp", VNum T)])).
Proof. unfold setItem. apply lookup_insert_eq. Qed.

Lemma envelope_properties v T :
  let envelope := readBack (VObj [("value", v); ("timestamp", VNum T)]) in
  getProperty envelope "value" = Ok (readBack v)
  /\ getProperty envelope "timestamp" = Ok (VNum T).
Proof. unfold readBack. cbn. destruct (callToJSON v); split; reflexivity. Qed.

(** What [getItem] does with an entry that [setItem] wrote at time [T]. *)
Lemma getItem_setItem name v T now (ls : gmap string string) :
  numbersSafe v = true -> isSafeInteger T = true ->
  getItem name now (setItem name v T ls)
  = if now - T >? EXPIRATION_TIME
    then Ok (VNull, delete name (setItem name v T ls))
    else Ok (readBack v, setItem name v T ls).
Proof.
  intros Hv HT. unfold getItem. rewrite (setItem_lookup name v T ls).
  rewrite ser_VObj, append_cons. cbn [String.eqb].
  rewrite <- append_cons, <- ser_VObj.
  assert (Hsafe : numbersSafe (VObj [("value", v); ("timestamp", VNum T)]) = true).
  { cbn [numbersSafe forallb snd]. rewrite Hv, HT. reflexivity. }
  destruct (parse_stringify (VObj [("value", v); ("timestamp", VNum T)]) Hsafe eq_refl)
    as [_ Hparse].
  change (callToJSON (VObj [("value", v); ("timestamp", VNum T)]))
    with (VObj [("value", v); ("timestamp", VNum T)]) in Hparse.
  rewrite Hparse, result_bind_Ok.
  destruct (envelope_properties v T) as [-> ->].
  reflexivity.
Qed.

Lemma getItem_absent name now (ls : gmap string string) :
  ls !! name = None -> getItem name now ls = Ok (VNull, ls).
Proof. intros H. unfold getItem. rewrite H. reflexivity. Qed.



(** ** What a value is read back as *)

Lemma readBack_VArr l :
  readBack (VArr l)
  = VArr (map (fun x => match readBack x with VUndefined => VNull | y => y end) l).
Proof.
  unfold readBack at 1. cbn [callToJSON]. rewrite jsonImage_VArr.
  unfold calledElements. rewrite map_map. f_equal. apply map_ext. intros x.
  unfold readBack. destruct (callToJSON x); reflexivity.
Qed.

Lemma readBack_toJSON l r :
  lookupProperty "toJSON" l = Some (VFunction r) ->
  readBack (VObj l) = jsonImage r.
Proof. intros H. unfold readBack. rewrite callToJSON_VObj, H. reflexivity. Qed.

Lemma readBack_VObj l :
  (forall r, lookupProperty "toJSON" l <> Some (VFunction r)) ->
  readBack (VObj l)
  = buildObject
      (flat_map (fun p => match readBack (snd p) with
                          | VUndefined => []
                          | y => [(fst p, y)]
                          end) l).
Proof.
  intros H. unfold readBack at 1. rewrite callToJSON_VObj.
  assert (Hl : map (fun p => (fst p, elemImage (snd p))) (definedMembers l)
               = flat_map (fun p => match readBack (snd p) with
                                    | VUndefined => []
                                    | y => [(fst p, y)]
                                    end) l).
  { clear H. unfold definedMembers, calledMembers, readBack.
    induction l as [|[k x] l IH]; [reflexivity|].
    cbn [map List.filter flat_map fst snd]. rewrite <- IH.
    destruct (callToJSON x); reflexivity. }
  destruct (lookupProperty "toJSON" l) as [[|r| | | | | | | | |]|] eqn:E;
    try (rewrite jsonImage_VObj, Hl; reflexivity).
  exfalso. apply (H r). reflexivity.
Qed.

(** C6, as the specification states it, fails in one point: what a read
    within the time to live returns is the value as its JSON text reproduces
    it, which for a value holding [undefined], or one that is [NaN], is not
    the value written. *)
Lemma cache_expiry_counterexample :
  let v := VArr [VNum 1; VUndefined] in
  let written := setItem "ui-store" v 1000 ∅ in
  let written' := setItem "ui-store" VNaN 1000 ∅ in
  getItem "ui-store" (1000 + 86399999) written = Ok (VArr [VNum 1; VNull], written) /\
  VArr [VNum 1; VNull] <> v /\
  getItem "ui-store" (1000 + 86399999) written' = Ok (VNull, written') /\
  VNull <> VNaN.
Proof.
  split; [reflexivity|]. split; [discriminate|].
  split; [reflexivity|discriminate].
Qed.

(** C6, amended. An entry written at time [T] and read at [T + 86 400 001]
    ms is reported absent and removed, so that a later read finds nothing;
    read at [T + 86 399 999] ms, and also at exactly [T + 86 400 000] ms, it
    comes back as the value its JSON text reproduces, and stays stored: the
    test is [age > TTL]. That value is the value written whenever the value
    written is a JSON value. Only [getItem] looks at the clock: writing or
    removing another key, however late, leaves the entry in place. The
    value written and the time are values of JavaScript: their integers are
    safe integers. *)
Theorem cache_expiry :
  forall (ls : gmap string string) (name : string) (v : jsval) (T : Z),
    numbersSafe v = true -> isSafeInteger T = true ->
    let written := setItem name v T ls in
    EXPIRATION_TIME = 86400000 /\
    getItem name (T + 86400001) written = Ok (VNull, delete name written) /\
    delete name written !! name = None /\
    (forall now, getItem name now (delete name written)
                 = Ok (VNull, delete name written)) /\
    getItem name (T + 86399999) written = Ok (readBack v, written) /\
    getItem name (T + 86400000) written = Ok (readBack v, written) /\
    (jsonData v = true -> readBack v = v) /\
    (forall now, getItem name now written
                 = if now - T >? EXPIRATION_TIME
                   then Ok (VNull, delete name written)
                   else Ok (readBack v, written)) /\
    (forall name' v' T', name' <> name ->
                         setItem name' v' T' written !! name = written !! name
                         /\ removeItem name' written !! name = written !! name).
Proof.
  intros ls name v T Hv HT written. unfold written.
  split; [reflexivity|].
  rewrite !(getItem_setItem name v T _ ls Hv HT).
  replace (T + 86400001 - T) with 86400001 by lia.
  replace (T + 86399999 - T) with 86399999 by lia.
  replace (T + 86400000 - T) with 86400000 by lia.
  split; [reflexivity|]. split; [apply lookup_delete_eq|].
  split; [intros now; apply getItem_absent, lookup_delete_eq|].
  split; [reflexivity|]. split; [reflexivity|].
  split; [apply readBack_jsonData|].
  split; [intros now; apply (getItem_setItem name v T now ls Hv HT)|].
  intros name' v' T' Hne. split.
  - unfold setItem at 1. apply lookup_insert_ne, Hne.
  - unfold removeItem. apply lookup_delete_ne, Hne.
Qed.

Lemma cache_expiry_witness :
  let v := VObj [("state", VObj [("searchQuery", VStr "rust"); ("page", VNum 2)]);
                 ("version", VNum 0)] in
  let written := setItem "ui-store" v 1700000000000 ∅ in
  getItem "ui-store" (1700000000000 + 86400001) written
  = Ok (VNull, delete "ui-store" written) /\
  getItem "ui-store" (1700000000000 + 86399999) written = Ok (v, written).
Proof.
  intros v written.
  destruct (cache_expiry ∅ "ui-store" v 1700000000000 eq_refl eq_refl)
    as (_ & Hlate & _ & _ & Hearly & _ & Hv & _).
  rewrite (Hv eq_refl) in Hearly. split; [exact Hlate|exact Hearly].
Defined.

(** C7, as the specification states it, fails: [JSON.stringify] has no text
    for [undefined] nor for a function, and writes [NaN] as [null]. A state
    object that carries an action (as [UIState] does) is written without it
    and read back without it; an array holding [undefined] is written with
    [null] in its place and read back as an array holding [null]; [NaN] is
    read back as [null]; an object with a [toJSON] method is read back as
    what the method returns. *)
Lemma round_trip_counterexample :
  let state := VObj [("searchQuery", VStr "rust"); ("page", VNum 1);
                     ("setPage", VFunction VUndefined)] in
  let ls := setItem "ui-store" state 0 ∅ in
  let ls1 := setItem "k" (VArr [VUndefined]) 0 ∅ in
  let ls2 := setItem "k" VNaN 0 ∅ in
  let stamped := VObj [("toJSON", VFunction (VNum 5)); ("a", VNum 1)] in
  let ls3 := setItem "k" stamped 0 ∅ in
  getItem "ui-store" 0 ls
  = Ok (VObj [("searchQuery", VStr "rust"); ("page", VNum 1)], ls) /\
  VObj [("searchQuery", VStr "rust"); ("page", VNum 1)] <> state /\
  ls1 !! "k" = Some ("{" +++ String JSON.quote "value" +++ String JSON.quote ":[null],"
                         +++ String JSON.quote "timestamp" +++ String JSON.quote ":0}") /\
  getItem "k" 0 ls1 = Ok (VArr [VNull], ls1) /\
  VArr [VNull] <> VArr [VUndefined] /\
  getItem "k" 0 ls2 = Ok (VNull, ls2) /\
  getItem "k" 0 ls3 = Ok (VNum 5, ls3).
Proof.
  intros state ls ls1 ls2 stamped ls3. split; [reflexivity|].
  split; [discriminate|]. split; [reflexivity|]. split; [reflexivity|].
  split; [discriminate|]. split; reflexivity.
Qed.

(** C7, amended. Writing a value and reading it back under the same key
    within the time to live yields the value as its JSON text reproduces it,
    and the entry stays stored. For every JSON value (one made of [null],
    booleans, safe integers other than the negative zero, strings, arrays
    and objects of these only) that is the value written. For the other
    values: [undefined] and a function are read back as [undefined], [NaN]
    and the infinities as [null], the negative zero as [0]; an array is
    read back element by element, an element read back as [undefined]
    becoming [null]; an object with a [toJSON] method is read back as what
    JSON keeps of the value the method returns; any other object is read
    back property by property, a property read back as [undefined] being
    dropped. The value written and the time are values of JavaScript: their
    integers are safe integers. *)
Theorem round_trip_json_data :
  forall (ls : gmap string string) (name : string) (v : jsval) (T now : Z),
    numbersSafe v = true -> isSafeInteger T = true ->
    now - T <= EXPIRATION_TIME ->
    getItem name now (setItem name v T ls) = Ok (readBack v, setItem name v T ls) /\
    (jsonData v = true ->
     getItem name now (setItem name v T ls) = Ok (v, setItem name v T ls)) /\
    readBack VUndefined = VUndefined /\
    (forall r, readBack (VFunction r) = VUndefined) /\
    readBack VNaN = VNull /\
    (forall negative, readBack (VInfinity negative) = VNull) /\
    readBack VNegZero = VNum 0 /\
    (forall l,
        readBack (VArr l)
        = VArr (map (fun x => match readBack x with
                              | VUndefined => VNull
                              | y => y
                              end) l)) /\
    (forall l r,
        lookupProperty "toJSON" l = Some (VFunction r) ->
        readBack (VObj l) = jsonImage r /\
        (jsonData r = true -> readBack (VObj l) = r)) /\
    (forall l,
        (forall r, lookupProperty "toJSON" l <> Some (VFunction r)) ->
        readBack (VObj l)
        = JSON.buildObject
            (flat_map (fun p => match readBack (snd p) with
                                | VUndefined => []
                                | y => [(fst p, y)]
                                end) l)).
Proof.
  intros ls name v T now Hv HT Hnow.
  rewrite (getItem_setItem name v T now ls Hv HT).
  destruct (Z.gtb_spec (now - T) EXPIRATION_TIME); [lia|].
  split; [reflexivity|].
  split; [intros Hd; rewrite (readBack_jsonData v Hd); reflexivity|].
  do 5 (split; [reflexivity|]).
  split; [apply readBack_VArr|].
  split; [|apply readBack_VObj].
  intros l r Hl. rewrite (readBack_toJSON l r Hl).
  split; [reflexivity|apply jsonImage_jsonData].
Qed.

Lemma round_trip_json_data_witness :
  let x := VObj [("id", VNum 1); ("title", VStr "x"); ("url", VStr "");
                 ("score", VNum 10); ("by", VStr "a"); ("time", VNum 100)] in
  let v := VObj [("searchQuery", VStr ""); ("stories", VArr [x]);
                 ("searchStories", VArr []); ("page", VNum 1);
                 ("searchPage", VNum 1)] in
  getItem "ui-store" 5 (setItem "ui-store" v 5 ∅) = Ok (v, setItem "ui-store" v 5 ∅).
Proof.
  intros x v.
  destruct (round_trip_json_data ∅ "ui-store" v 5 5 eq_refl eq_refl) as (_ & H & _).
  - unfold EXPIRATION_TIME. lia.
  - apply H. reflexivity.
Defined.

(** ** What [JSON.parse] returns *)











(** * Further properties of the feed-state engine *)

(** ** A stable sort is determined by its input's groups of equal time *)

Lemma newestFirst_trans : Transitive newestFirst.
Proof. intros a b c. unfold newestFirst. lia. Qed.

Lemma createdAt_app t l1 l2 :
  createdAt t (l1 ++ l2) = createdAt t l1 ++ createdAt t l2.
Proof. unfold createdAt. apply List.filter_app. Qed.

Lemma createdAt_In t l x : In x (createdAt t l) -> In x l /\ time x = t.
Proof.
  unfold createdAt. intros H. apply filter_In in H as [H1 H2].
  split; [exact H1|]. apply Z.eqb_eq, H2.
Qed.

Lemma createdAt_head x l : createdAt (time x) (x :: l) = x :: createdAt (time x) l.
Proof. unfold createdAt. simpl. rewrite Z.eqb_refl. reflexivity. Qed.

Lemma createdAt_other t x l : time x <> t -> createdAt t (x :: l) = createdAt t l.
Proof.
  intros H. unfold createdAt. simpl.
  destruct (Z.eqb_spec (time x) t); [contradiction|reflexivity].
Qed.

(** In a list sorted newest first nothing is newer than the head. *)
Lemma Sorted_head_newest x l y :
  Sorted newestFirst (x :: l) -> In y (x :: l) -> time y <= time x.
Proof.
  intros Hs Hin. apply (Sorted_StronglySorted newestFirst_trans) in Hs.
  destruct Hin as [->|Hin]; [lia|].
  apply StronglySorted_inv in Hs as [_ Hall].
  rewrite List.Forall_forall in Hall. specialize (Hall y Hin).
  unfold newestFirst in Hall. lia.
Qed.

Lemma Sorted_heads_same_time x l1 y l2 :
  Sorted newestFirst (x :: l1) -> Sorted newestFirst (y :: l2) ->
  (forall t, createdAt t (x :: l1) = createdAt t (y :: l2)) ->
  time x = time y.
Proof.
  intros H1 H2 Heq.
  assert (Hy : In y (x :: l1)).
  { apply (createdAt_In (time y)). rewrite Heq, createdAt_head. left. reflexivity. }
  assert (Hx : In x (y :: l2)).
  { apply (createdAt_In (time x)). rewrite <- Heq, createdAt_head. left. reflexivity. }
  pose proof (Sorted_head_newest _ _ _ H1 Hy).
  pose proof (Sorted_head_newest _ _ _ H2 Hx). lia.
Qed.

Lemma Sorted_createdAt_unique l1 l2 :
  Sorted newestFirst l1 -> Sorted newestFirst l2 ->
  (forall t, createdAt t l1 = createdAt t l2) -> l1 = l2.
Proof.
  revert l2. induction l1 as [|x l1 IH]; intros l2 H1 H2 Heq.
  - destruct l2 as [|y l2]; [reflexivity|].
    specialize (Heq (time y)). rewrite createdAt_head in Heq. discriminate.
  - destruct l2 as [|y l2].
    { specialize (Heq (time x)). rewrite createdAt_head in Heq. discriminate. }
    pose proof (Sorted_heads_same_time _ _ _ _ H1 H2 Heq) as Ht.
    pose proof (Heq (time y)) as Hx. rewrite createdAt_head in Hx.
    rewrite <- Ht in Hx. rewrite createdAt_head in Hx.
    injection Hx as Hxy Htail. subst y.
    f_equal. apply IH.
    + apply Sorted_inv in H1. tauto.
    + apply Sorted_inv in H2. tauto.
    + intros t. destruct (Z.eq_dec (time x) t) as [<-|Hne].
      * exact Htail.
      * specialize (Heq t). rewrite !createdAt_other in Heq by exact Hne. exact Heq.
Qed.

Lemma Array_sort_determined l1 l2 :
  (forall t, createdAt t l1 = createdAt t l2) ->
  Array_sort byTimeDesc l1 = Array_sort byTimeDesc l2.
Proof.
  intros H. apply Sorted_createdAt_unique; try apply Array_sort_Sorted.
  intros t. rewrite !Array_sort_createdAt. apply H.
Qed.

Lemma Array_sort_app_sorted l1 l2 :
  Array_sort byTimeDesc (Array_sort byTimeDesc l1 ++ l2)
  = Array_sort byTimeDesc (l1 ++ l2).
Proof.
  apply Array_sort_determined. intros t.
  rewrite !createdAt_app, Array_sort_createdAt. reflexivity.
Qed.

(** ** Merging in pieces *)

Lemma dedupFirst_absorb seen l1 l2 :
  idsOf l1 ⊆ seen -> dedupFirst seen (l1 ++ l2) = dedupFirst seen l2.
Proof.
  intros H. rewrite dedupFirst_app, (dedupFirst_seen seen l1 H). simpl.
  f_equal. set_solver.
Qed.

Lemma mergeStories_mergeStories existing b a :
  mergeStories (mergeStories existing b) a = mergeStories existing (b ++ a).
Proof.
  rewrite (mergeStories_dedupFirst (mergeStories existing b) a).
  rewrite dedupFirst_app.
  rewrite dedupFirst_fixed by (try apply mergeStories_NoDup; set_solver).
  rewrite idsOf_mergeStories, <- idsOf_app.
  rewrite (mergeStories_dedupFirst existing b), Array_sort_app_sorted.
  rewrite (mergeStories_dedupFirst existing (b ++ a)).
  rewrite app_assoc, (dedupFirst_app ∅ (existing ++ b) a). reflexivity.
Qed.

(** X1. Merging batch [b] and then batch [a] gives the same state as
    merging [b ++ a] at once, for both modes: the items, which copy of a
    repeated id is kept, and the order are the same. *)
Theorem merge_in_pieces :
  forall (s : UIState) (b a : list Story),
    addStories a (addStories b s) = addStories (b ++ a) s /\
    addSearchStories a (addSearchStories b s) = addSearchStories (b ++ a) s.
Proof.
  intros s b a. unfold addStories, addSearchStories; simpl.
  rewrite !mergeStories_mergeStories. split; reflexivity.
Qed.

(** ** The lists of a reachable state *)

Lemma kept_nil : kept [].
Proof. split; constructor. Qed.

Lemma kept_mergeStories existing batch : kept (mergeStories existing batch).
Proof.
  split; [apply mergeStories_Sorted|apply NoDup_ListNoDup, mergeStories_NoDup].
Qed.

Lemma reachable_kept s : reachable s -> kept (stories s) /\ kept (searchStories s).
Proof.
  induction 1 as [|a s Hs [IH1 IH2]]; [split; apply kept_nil|].
  destruct a; simpl; try (split; assumption);
    try (split; [assumption || apply kept_mergeStories || apply kept_nil
                |assumption || apply kept_mergeStories || apply kept_nil]).
  unfold setSearchQuery. destruct (negb (String.eqb query (searchQuery s))); simpl;
    split; try assumption. apply kept_nil.
Qed.

(** X2. In every state the store can reach from its initial state, both
    lists are sorted newest first and hold no id twice. *)
Theorem reachable_lists_sorted_unique :
  forall s : UIState,
    reachable s ->
    (Sorted newestFirst (stories s) /\ List.NoDup (map id (stories s))) /\
    (Sorted newestFirst (searchStories s) /\ List.NoDup (map id (searchStories s))).
Proof. intros s Hs. exact (reachable_kept s Hs). Qed.

Lemma reachable_lists_sorted_unique_witness :
  let x := mkStory 1 "x" "" 0 "" 100 in
  let y := mkStory 2 "y" "" 0 "" 300 in
  let s := step (SetSearchQuery "rust")
             (step (AddSearchStories [x; y; x]) (step (AddStories [x; y]) initialState)) in
  map id (stories s) = [2; 1] /\
  Sorted newestFirst (stories s) /\ List.NoDup (map id (searchStories s)).
Proof.
  intros x y s. split; [reflexivity|].
  destruct (reachable_lists_sorted_unique s) as [[H1 _] [_ H2]].
  - repeat constructor.
  - split; assumption.
Defined.

Lemma incl_idsOf batch l :
  incl (map id batch) (map id l) -> idsOf batch ⊆ idsOf l.
Proof.
  intros H i. unfold idsOf. rewrite !elem_of_list_to_set, !list_elem_of_In.
  apply H.
Qed.

Lemma mergeStories_absorb existing batch :
  kept existing -> idsOf batch ⊆ idsOf existing ->
  mergeStories existing batch = existing.
Proof.
  intros [Hs Hn] Hsub. rewrite mergeStories_dedupFirst, dedupFirst_app.
  rewrite dedupFirst_fixed by (try apply NoDup_ListNoDup, Hn; set_solver).
  rewrite dedupFirst_seen by set_solver.
  rewrite app_nil_r. apply Array_sort_Sorted_id, Hs.
Qed.

(** X3. In a reachable state, merging a batch all of whose ids are already
    in the list changes nothing: the items already held stay as they are,
    so a fetched copy with newer fields (a changed score, say) is not taken
    up. In particular merging the empty batch changes nothing. *)
Theorem merge_of_known_ids_changes_nothing :
  forall (s : UIState) (batch : list Story),
    reachable s ->
    (incl (map id batch) (map id (stories s)) -> addStories batch s = s) /\
    (incl (map id batch) (map id (searchStories s)) ->
     addSearchStories batch s = s) /\
    addStories [] s = s /\ addSearchStories [] s = s.
Proof.
  intros s batch Hs. destruct (reachable_kept s Hs) as [H1 H2].
  assert (Hnil : idsOf [] ⊆ idsOf (stories s) /\ idsOf [] ⊆ idsOf (searchStories s))
    by (split; set_solver).
  destruct s as [q st sst p sp]; unfold addStories, addSearchStories; simpl in *.
  repeat split.
  - intros H. f_equal. apply mergeStories_absorb; [exact H1|apply incl_idsOf, H].
  - intros H. f_equal. apply mergeStories_absorb; [exact H2|apply incl_idsOf, H].
  - f_equal. apply mergeStories_absorb; [exact H1|apply Hnil].
  - f_equal. apply mergeStories_absorb; [exact H2|apply Hnil].
Qed.

Lemma merge_of_known_ids_changes_nothing_witness :
  let old := mkStory 1 "t" "u" 10 "a" 50 in
  let new := mkStory 1 "t" "u" 99 "a" 50 in
  let s := step (AddStories [old]) initialState in
  addStories [new] s = s /\ stories s = [old].
Proof.
  intros old new s. split; [|reflexivity].
  destruct (merge_of_known_ids_changes_nothing s [new]) as (H & _).
  - repeat constructor.
  - apply H. intros i Hi. exact Hi.
Defined.

Lemma dedupFirst_length seen l : (length (dedupFirst seen l) <= length l)%nat.
Proof.
  revert seen. induction l as [|x l IH]; intros seen; simpl; [lia|].
  destruct (decide (id x ∈ seen)); simpl.
  - specialize (IH seen). lia.
  - specialize (IH ({[id x]} ∪ seen)). lia.
Qed.

Lemma mergeStories_Permutation existing batch :
  List.NoDup (map id existing) ->
  Permutation (mergeStories existing batch) (existing ++ fresh existing batch).
Proof.
  intros Hn. rewrite mergeStories_dedupFirst, Array_sort_Permutation.
  rewrite dedupFirst_app.
  rewrite dedupFirst_fixed by (try apply NoDup_ListNoDup, Hn; set_solver).
  unfold fresh. replace (idsOf existing ∪ ∅) with (idsOf existing) by set_solver.
  reflexivity.
Qed.

Lemma mergeStories_grows existing batch :
  List.NoDup (map id existing) ->
  (forall e, In e existing -> In e (mergeStories existing batch)) /\
  Permutation (mergeStories existing batch) (existing ++ fresh existing batch) /\
  (length existing <= length (mergeStories existing batch)
   <= length existing + length batch)%nat.
Proof.
  intros Hn. pose proof (mergeStories_Permutation existing batch Hn) as Hp.
  split; [|split; [exact Hp|]].
  - intros e He. apply list_elem_of_In. rewrite Hp.
    apply list_elem_of_In, in_or_app. left. exact He.
  - rewrite (Permutation_length Hp), length_app.
    pose proof (dedupFirst_length (idsOf existing) batch). unfold fresh. lia.
Qed.

(** X4. In a reachable state a merge drops and alters nothing that is in the
    list: the merged list is the old list together with the first copy of
    each batch item whose id is new, rearranged; so it is at least as long
    as before and longer by at most the size of the batch. *)
Theorem merge_keeps_and_grows :
  forall (s : UIState) (batch : list Story),
    reachable s ->
    ((forall e, In e (stories s) -> In e (stories (addStories batch s))) /\
     Permutation (stories (addStories batch s))
                 (stories s ++ fresh (stories s) batch) /\
     (length (stories s) <= length (stories (addStories batch s))
      <= length (stories s) + length batch)%nat) /\
    ((forall e, In e (searchStories s) ->
                In e (searchStories (addSearchStories batch s))) /\
     Permutation (searchStories (addSearchStories batch s))
                 (searchStories s ++ fresh (searchStories s) batch) /\
     (length (searchStories s) <= length (searchStories (addSearchStories batch s))
      <= length (searchStories s) + length batch)%nat).
Proof.
  intros s batch Hs. destruct (reachable_kept s Hs) as [[_ H1] [_ H2]].
  split; simpl; apply mergeStories_grows; assumption.
Qed.

Lemma merge_keeps_and_grows_witness :
  let x := mkStory 1 "x" "" 0 "" 100 in
  let y := mkStory 2 "y" "" 0 "" 300 in
  let s := step (AddStories [x]) initialState in
  In x (stories (addStories [y; x; y] s)) /\
  (length (stories (addStories [y; x; y] s)) <= 1 + 3)%nat.
Proof.
  intros x y s.
  destruct (merge_keeps_and_grows s [y; x; y]) as [(Hin & _ & _ & Hlen) _].
  - repeat constructor.
  - split; [apply Hin; left; reflexivity|exact Hlen].
Defined.

(** ** Clearing a list, and changing the query *)

(** X5. After [resetStories] a merge starts from nothing: the list then
    holds exactly the first copy of each id of the batch, whatever was in it
    before and even if the ids were held before, and a reset after a merge
    is a reset. The same holds for [resetSearchStories]. *)
Theorem reset_then_merge :
  forall (s : UIState) (batch : list Story),
    (forall x, In x (stories (addStories batch (resetStories s)))
               <-> firstWithId (id x) batch = Some x) /\
    (forall x, In x (searchStories (addSearchStories batch (resetSearchStories s)))
               <-> firstWithId (id x) batch = Some x) /\
    stories (addStories batch (resetStories s))
    = stories (addStories batch initialState) /\
    searchStories (addSearchStories batch (resetSearchStories s))
    = searchStories (addSearchStories batch initialState) /\
    resetStories (addStories batch s) = resetStories s /\
    resetSearchStories (addSearchStories batch s) = resetSearchStories s.
Proof.
  intros s batch. simpl.
  split; [intros x; apply (mergeStories_In [] batch x)|].
  split; [intros x; apply (mergeStories_In [] batch x)|].
  repeat split.
Qed.

(** X6. [setSearchQuery q] always leaves [q] as the query, and calling it
    again with [q] changes nothing more. Changing the query and changing it
    back does not bring the search results back: the list is empty and the
    search page is 1. The store does not know which query a batch answers:
    a batch merged after a change of query becomes the list of the new
    query. *)
Theorem setSearchQuery_forgets_results :
  forall (s : UIState) (q : string),
    searchQuery (setSearchQuery q s) = q /\
    setSearchQuery q (setSearchQuery q s) = setSearchQuery q s /\
    (q <> searchQuery s ->
     setSearchQuery (searchQuery s) (setSearchQuery q s)
     = {| searchQuery := searchQuery s; stories := stories s;
          searchStories := []; page := page s; searchPage := 1 |}) /\
    (q <> searchQuery s ->
     forall batch,
       addSearchStories batch (setSearchQuery q s)
       = {| searchQuery := q; stories := stories s;
            searchStories := mergeStories [] batch;
            page := page s; searchPage := 1 |}).
Proof.
  intros s q.
  assert (Hq : searchQuery (setSearchQuery q s) = q).
  { unfold setSearchQuery. destruct (String.eqb_spec q (searchQuery s)); simpl; auto. }
  split; [exact Hq|]. split; [apply setSearchQuery_same; symmetry; exact Hq|].
  split.
  - intros Hne. rewrite (setSearchQuery_other q s Hne).
    rewrite setSearchQuery_other by (simpl; congruence). reflexivity.
  - intros Hne batch. rewrite (setSearchQuery_other q s Hne). reflexivity.
Qed.

Lemma setSearchQuery_forgets_results_witness :
  let x := mkStory 1 "x" "" 0 "" 100 in
  let s := {| searchQuery := "rust"; stories := []; searchStories := [x];
              page := 1; searchPage := 4 |} in
  searchStories (setSearchQuery "rust" (setSearchQuery "rus" s)) = [] /\
  searchPage (setSearchQuery "rust" (setSearchQuery "rus" s)) = 1.
Proof.
  intros x s.
  destruct (setSearchQuery_forgets_results s "rus") as (_ & _ & H & _).
  specialize (H ltac:(discriminate)).
  change (searchStories (setSearchQuery (searchQuery s) (setSearchQuery "rus" s)) = []
          /\ searchPage (setSearchQuery (searchQuery s) (setSearchQuery "rus" s)) = 1).
  rewrite H. split; reflexivity.
Defined.

(** * Further properties of the expiring key-value store *)

Lemma getItem_store name now (ls ls' : gmap string string) v :
  getItem name now ls = Ok (v, ls') ->
  ls' = ls \/ (ls' = delete name ls /\ v = VNull).
Proof.
  unfold getItem. destruct (ls !! name) as [item|]; [|intros [= <- <-]; auto].
  destruct (String.eqb item ""); [intros [= <- <-]; auto|].
  destruct (parse item) as [parsed| |]; try discriminate. rewrite result_bind_Ok.
  destruct (getProperty parsed "value") as [value| |]; try discriminate.
  rewrite result_bind_Ok.
  destruct (getProperty parsed "timestamp") as [timestamp| |]; try discriminate.
  rewrite result_bind_Ok.
  destruct (ToNumber timestamp) as [t| |]; try discriminate; rewrite result_bind_Ok.
  destruct (greaterThan (subtract now t) EXPIRATION_TIME); intros [= <- <-]; auto.
Qed.

(** X7. A read touches no key but the one it reads, and adds nothing: the
    store after it is the store before, or the store before without the key
    read, and then the read returned [null]. A second read at the same
    instant returns what the first returned and changes nothing. This holds
    for every content of [localStorage], well-formed or not. *)
Theorem read_is_local_and_repeatable :
  forall (name : string) (now : Z) (ls ls' : gmap string string) (v : jsval),
    getItem name now ls = Ok (v, ls') ->
    (ls' = ls \/ (ls' = delete name ls /\ v = VNull)) /\
    (forall k, k <> name -> ls' !! k = ls !! k) /\
    getItem name now ls' = Ok (v, ls').
Proof.
  intros name now ls ls' v H.
  destruct (getItem_store name now ls ls' v H) as [->|[-> ->]].
  - split; [left; reflexivity|]. split; [reflexivity|exact H].
  - split; [right; split; reflexivity|].
    split; [intros k Hk; apply lookup_delete_ne; congruence|].
    apply getItem_absent, lookup_delete_eq.
Qed.

Lemma read_is_local_and_repeatable_witness :
  let ls := setItem "other" VNull 0 (setItem "ui-store" (VNum 7) 0 ∅) in
  let ls' := delete "ui-store" ls in
  getItem "ui-store" 86400001 ls = Ok (VNull, ls') /\
  ls' !! "other" = ls !! "other" /\
  getItem "ui-store" 86400001 ls' = Ok (VNull, ls').
Proof.
  intros ls ls'.
  assert (H : getItem "ui-store" 86400001 ls = Ok (VNull, ls')) by reflexivity.
  destruct (read_is_local_and_repeatable _ _ _ _ _ H) as (_ & Hk & Hagain).
  split; [exact H|]. split; [apply Hk; discriminate|exact Hagain].
Defined.

Lemma getItem_returned_lookup name now (ls1 ls2 : gmap string string) :
  ls1 !! name = ls2 !! name ->
  returned (getItem name now ls1) = returned (getItem name now ls2).
Proof.
  intros H. unfold getItem. rewrite H.
  destruct (ls2 !! name) as [item|]; [|reflexivity].
  destruct (String.eqb item ""); [reflexivity|].
  destruct (parse item) as [parsed| |]; try reflexivity. rewrite !result_bind_Ok.
  destruct (getProperty parsed "value") as [value| |]; try reflexivity.
  rewrite !result_bind_Ok.
  destruct (getProperty parsed "timestamp") as [timestamp| |]; try reflexivity.
  rewrite !result_bind_Ok.
  destruct (ToNumber timestamp) as [t| |]; try reflexivity.
  rewrite !result_bind_Ok.
  destruct (greaterThan (subtract now t) EXPIRATION_TIME); reflexivity.
Qed.

(** X8. Keys do not interfere: writing, removing or reading one key does not
    change what a read of another key returns or throws, at any time. *)
Theorem keys_are_independent :
  forall (name k : string) (now : Z) (ls : gmap string string),
    k <> name ->
    (forall v T,
        returned (getItem k now (setItem name v T ls))
        = returned (getItem k now ls)) /\
    returned (getItem k now (removeItem name ls)) = returned (getItem k now ls) /\
    (forall now' v ls',
        getItem name now' ls = Ok (v, ls') ->
        returned (getItem k now ls') = returned (getItem k now ls)).
Proof.
  intros name k now ls Hne. split; [|split].
  - intros v T. apply getItem_returned_lookup. unfold setItem.
    apply lookup_insert_ne. congruence.
  - apply getItem_returned_lookup. unfold removeItem.
    apply lookup_delete_ne. congruence.
  - intros now' v ls' H. apply getItem_returned_lookup.
    destruct (getItem_store name now' ls ls' v H) as [->|[-> _]]; [reflexivity|].
    apply lookup_delete_ne. congruence.
Qed.

Lemma keys_are_independent_witness :
  let ls := setItem "a" (VStr "kept") 5 ∅ in
  returned (getItem "a" 9 (setItem "b" (VFunction VUndefined) 8 ls)) = Ok (VStr "kept") /\
  returned (getItem "a" 9 (removeItem "b" ls)) = Ok (VStr "kept").
Proof.
  intros ls.
  destruct (keys_are_independent "b" "a" 9 ls) as (Hset & Hrem & _);
    [discriminate|].
  rewrite Hset, Hrem. split; reflexivity.
Defined.

(** X9. A second write under the same key replaces the first altogether:
    the store is as if only the second had been made. A read then returns
    the second value as its JSON text reproduces it, which is the second
    value itself when that is a JSON value, and nothing of the first, and
    the age of the entry counts from the second write: an entry first
    written at [T1] and rewritten at [T2] is still read at every time up to
    [T2 + 86 400 000], however old the first write is. The second value and
    the time of the second write are values of JavaScript: their integers
    are safe integers. *)
Theorem rewrite_replaces_and_refreshes :
  forall (name : string) (v1 v2 : jsval) (T1 T2 now : Z) (ls : gmap string string),
    numbersSafe v2 = true -> isSafeInteger T2 = true ->
    setItem name v2 T2 (setItem name v1 T1 ls) = setItem name v2 T2 ls /\
    getItem name now (setItem name v2 T2 (setItem name v1 T1 ls))
    = (if now - T2 >? EXPIRATION_TIME
       then Ok (VNull, delete name (setItem name v2 T2 ls))
       else Ok (readBack v2, setItem name v2 T2 ls)) /\
    (now <= T2 + 86400000 ->
     returned (getItem name now (setItem name v2 T2 (setItem name v1 T1 ls)))
     = Ok (readBack v2)) /\
    (now <= T2 + 86400000 -> jsonData v2 = true ->
     returned (getItem name now (setItem name v2 T2 (setItem name v1 T1 ls)))
     = Ok v2).
Proof.
  intros name v1 v2 T1 T2 now ls Hv HT.
  assert (H : setItem name v2 T2 (setItem name v1 T1 ls) = setItem name v2 T2 ls)
    by (unfold setItem; apply insert_insert_eq).
  rewrite H, (getItem_setItem name v2 T2 now ls Hv HT).
  split; [reflexivity|]. split; [reflexivity|].
  split; [|intros Hnow Hd; rewrite (readBack_jsonData v2 Hd)];
    try intros Hnow;
    (destruct (Z.gtb_spec (now - T2) EXPIRATION_TIME) as [Hgt|_];
     [unfold EXPIRATION_TIME in Hgt; lia|reflexivity]).
Qed.

Lemma rewrite_replaces_and_refreshes_witness :
  returned (getItem "ui-store" 90000000
              (setItem "ui-store" (VNum 2) 50000000
                 (setItem "ui-store" (VArr [VUndefined]) 0 ∅)))
  = Ok (VNum 2).
Proof.
  destruct (rewrite_replaces_and_refreshes "ui-store" (VArr [VUndefined]) (VNum 2)
              0 50000000 90000000 ∅ eq_refl eq_refl) as (_ & _ & _ & H).
  apply H; [lia|reflexivity].
Defined.

(** X10. [removeItem] makes the key read as absent at every time and leaves
    the store without it; removing a key that is not there changes nothing,
    and so does removing it twice; a removal undoes a write made to a store
    that did not hold the key. *)
Theorem removeItem_forgets :
  forall (name : string) (now : Z) (ls : gmap string string),
    getItem name now (removeItem name ls) = Ok (VNull, removeItem name ls) /\
    (ls !! name = None -> removeItem name ls = ls) /\
    removeItem name (removeItem name ls) = removeItem name ls /\
    (forall v T, removeItem name (setItem name v T ls) = removeItem name ls) /\
    (forall v T, ls !! name = None -> removeItem name (setItem name v T ls) = ls).
Proof.
  intros name now ls. unfold removeItem, setItem.
  split; [apply getItem_absent, lookup_delete_eq|].
  split; [apply delete_id|].
  split; [apply delete_delete_eq|].
  split; [intros v T; apply delete_insert_eq|].
  intros v T H. rewrite delete_insert_eq. apply delete_id, H.
Qed.

Lemma removeItem_forgets_witness :
  removeItem "ui-store" (setItem "ui-store" (VNum 1) 0 ∅) = ∅ /\
  getItem "ui-store" 1 (removeItem "ui-store" (setItem "ui-store" (VNum 1) 0 ∅))
  = Ok (VNull, ∅).
Proof.
  destruct (removeItem_forgets "ui-store" 1 ∅) as (_ & _ & _ & _ & H).
  destruct (removeItem_forgets "ui-store" 1 (setItem "ui-store" (VNum 1) 0 ∅))
    as (Hread & _).
  rewrite (H (VNum 1) 0 (lookup_empty _)) in Hread |- *.
  split; [reflexivity|exact Hread].
Defined.

(** * Properties of the driving component *)

Import App.

(** [slice] between two indices that are not negative is a window of the
    array. *)
Lemma Array_slice_window {A} (a n : nat) (l : list A) :
  Array_slice (Z.of_nat a) (Z.of_nat a + Z.of_nat n) l = firstn n (skipn a l).
Proof.
  unfold Array_slice.
  destruct (Z.ltb_spec (Z.of_nat a) 0) as [?|_]; [lia|].
  destruct (Z.ltb_spec (Z.of_nat a + Z.of_nat n) 0) as [?|_]; [lia|].
  destruct (le_lt_dec (length l) a) as [Hout|Hin].
  - replace (Z.to_nat (Z.min (Z.of_nat a) (Z.of_nat (length l))))
      with (length l) by lia.
    rewrite (skipn_all2 l) by lia. rewrite (skipn_all2 l Hout).
    rewrite !firstn_nil. reflexivity.
  - replace (Z.to_nat (Z.min (Z.of_nat a) (Z.of_nat (length l)))) with a by lia.
    destruct (le_lt_dec n (length l - a)) as [Hn|Hn].
    + f_equal. lia.
    + rewrite !firstn_all2; [reflexivity| |]; rewrite length_skipn; lia.
Qed.

Lemma Array_slice_nil {A} (a b : Z) : Array_slice a b (@nil A) = [].
Proof. unfold Array_slice. rewrite skipn_nil. apply firstn_nil. Qed.

Lemma Array_slice_to_zero {A} (a : Z) (l : list A) :
  a <= 0 -> Array_slice a 0 l = [].
Proof.
  intros Ha. unfold Array_slice.
  change (0 <? 0) with false. cbv iota.
  replace (Z.to_nat (Z.max (Z.min 0 (Z.of_nat (length l)) -
    (if a <? 0 then Z.max (Z.of_nat (length l) + a) 0
     else Z.min a (Z.of_nat (length l)))) 0)) with 0%nat; [reflexivity|].
  destruct (Z.ltb_spec a 0); lia.
Qed.

Lemma fetchStories_pageStories item (k : nat) storyIds :
  pageStories (fetchStories item (Z.of_nat (S k)) storyIds)
  = map item (firstn 20 (skipn (20 * k) storyIds)).
Proof.
  unfold fetchStories. cbn [pageStories]. f_equal.
  replace ((Z.of_nat (S k) - 1) * 20) with (Z.of_nat (20 * k)) by lia.
  apply (Array_slice_window (20 * k) 20).
Qed.

Lemma fetchStories_hasMore item (k : nat) storyIds :
  hasMore (fetchStories item (Z.of_nat (S k)) storyIds)
  = (20 * k <? length storyIds)%nat.
Proof.
  unfold fetchStories. cbn [hasMore].
  replace ((Z.of_nat (S k) - 1) * 20) with (Z.of_nat (20 * k)) by lia.
  rewrite (Array_slice_window (20 * k) 20), length_firstn, length_skipn.
  destruct (Nat.ltb_spec (20 * k) (length storyIds));
    destruct (Nat.ltb_spec 0 (Nat.min 20 (length storyIds - 20 * k)));
    try reflexivity; lia.
Qed.

Lemma firstPages_S item storyIds n :
  firstPages item storyIds (S n)
  = firstPages item storyIds n ++ [fetchStories item (Z.of_nat (S n)) storyIds].
Proof. unfold firstPages. rewrite seq_S, map_app. reflexivity. Qed.

Lemma firstPages_stories item storyIds n :
  flat_map pageStories (firstPages item storyIds n)
  = map item (firstn (20 * n) storyIds).
Proof.
  induction n as [|n IH]; [reflexivity|].
  rewrite firstPages_S, flat_map_app, IH. cbn [flat_map].
  rewrite app_nil_r, fetchStories_pageStories, <- map_app.
  f_equal. replace (20 * S n)%nat with (20 * n + 20)%nat by lia.
  apply take_take_drop.
Qed.

(** The store after a run of merges of batches each of which extends the
    one before is the store after the last merge alone. *)
Lemma mergeStories_extended existing b d :
  mergeStories (mergeStories existing b) (b ++ d) = mergeStories existing (b ++ d).
Proof.
  rewrite mergeStories_mergeStories, !mergeStories_dedupFirst. f_equal.
  rewrite !app_assoc, (dedupFirst_app _ ((existing ++ b) ++ b) d).
  rewrite (dedupFirst_app _ (existing ++ b) d). f_equal.
  - rewrite (dedupFirst_app _ (existing ++ b) b).
    rewrite (dedupFirst_seen _ b), app_nil_r; [reflexivity|].
    rewrite idsOf_app. set_solver.
  - f_equal. rewrite !idsOf_app. set_solver.
Qed.

Lemma addStories_growing (f : nat -> list Story) :
  (forall k, exists d, f (S k) = f k ++ d) ->
  forall n s,
    fold_left (fun st k => addStories (f k) st) (seq 1 (S n)) s
    = addStories (f (S n)) s.
Proof.
  intros Hf n s. induction n as [|n IH]; [reflexivity|].
  rewrite seq_S, fold_left_app, IH. cbn [fold_left Nat.add].
  destruct (Hf (S n)) as [d ->].
  unfold addStories; cbn [stories searchStories page searchPage searchQuery].
  rewrite mergeStories_extended. reflexivity.
Qed.

Lemma addSearchStories_growing (f : nat -> list Story) :
  (forall k, exists d, f (S k) = f k ++ d) ->
  forall n s,
    fold_left (fun st k => addSearchStories (f k) st) (seq 1 (S n)) s
    = addSearchStories (f (S n)) s.
Proof.
  intros Hf n s. induction n as [|n IH]; [reflexivity|].
  rewrite seq_S, fold_left_app, IH. cbn [fold_left Nat.add].
  destruct (Hf (S n)) as [d ->].
  unfold addSearchStories; cbn [stories searchStories page searchPage searchQuery].
  rewrite mergeStories_extended. reflexivity.
Qed.

Lemma flat_map_firstn_S (pages : list Page) k :
  exists d, flat_map pageStories (firstn (S k) pages)
            = flat_map pageStories (firstn k pages) ++ d.
Proof.
  exists (flat_map pageStories (firstn 1 (skipn k pages))).
  rewrite <- flat_map_app. f_equal.
  replace (S k) with (k + 1)%nat by lia. symmetry. apply take_take_drop.
Qed.

(** X11. The pages of the top stories cut the list of ids into consecutive
    runs of twenty: page [k + 1] holds the stories of the ids at the indices
    [20 k .. 20 k + 19] in their order, at most twenty of them; the pages
    [1 .. n] together hold the stories of the first [20 n] ids, each index
    once and in order, hence of all the ids once [20 n] reaches their
    number. Page 0 holds nothing. *)
Theorem pages_partition_the_ids :
  forall (item : Z -> Story) (storyIds : list Z) (n k : nat),
    pageStories (fetchStories item (Z.of_nat (S k)) storyIds)
    = map item (firstn 20 (skipn (20 * k) storyIds)) /\
    (length (pageStories (fetchStories item (Z.of_nat (S k)) storyIds)) <= 20)%nat /\
    flat_map pageStories (firstPages item storyIds n)
    = map item (firstn (20 * n) storyIds) /\
    ((length storyIds <= 20 * n)%nat ->
     flat_map pageStories (firstPages item storyIds n) = map item storyIds) /\
    pageStories (fetchStories item 0 storyIds) = [].
Proof.
  intros item storyIds n k.
  split; [apply fetchStories_pageStories|].
  split.
  { rewrite fetchStories_pageStories, length_map, length_firstn. lia. }
  split; [apply firstPages_stories|].
  split.
  { intros Hn. rewrite firstPages_stories, firstn_all2 by exact Hn. reflexivity. }
  unfold fetchStories. cbn [pageStories].
  change ((0 - 1) * 20 + 20) with 0. rewrite Array_slice_to_zero by lia.
  reflexivity.
Qed.

(** X12. A page of the top stories announces a next page exactly when it
    holds a story. So the page that holds the last ids still announces a
    next page, also when it is full to the last place or holds fewer than
    twenty; the page after it is empty, and only that one ends the paging.
    With no ids at all no page announces a next one, and neither does
    page 0. *)
Theorem paging_ends_on_the_first_empty_page :
  forall (item : Z -> Story) (storyIds : list Z) (k : nat),
    getNextPageParam (fetchStories item (Z.of_nat (S k)) storyIds)
    = (if (20 * k <? length storyIds)%nat then Some (Z.of_nat (S (S k))) else None) /\
    ((20 * k < length storyIds <= 20 * k + 20)%nat ->
     getNextPageParam (fetchStories item (Z.of_nat (S k)) storyIds)
     = Some (Z.of_nat (S (S k))) /\
     pageStories (fetchStories item (Z.of_nat (S (S k))) storyIds) = [] /\
     getNextPageParam (fetchStories item (Z.of_nat (S (S k))) storyIds) = None) /\
    (forall p, getNextPageParam (fetchStories item p []) = None) /\
    getNextPageParam (fetchStories item 0 storyIds) = None.
Proof.
  intros item storyIds k.
  assert (Hnext : forall j,
    getNextPageParam (fetchStories item (Z.of_nat (S j)) storyIds)
    = (if (20 * j <? length storyIds)%nat then Some (Z.of_nat (S (S j))) else None)).
  { intros j. unfold getNextPageParam. rewrite fetchStories_hasMore.
    destruct (20 * j <? length storyIds)%nat; [|reflexivity].
    unfold fetchStories; cbn [nextPage]. f_equal. lia. }
  split; [apply Hnext|].
  split.
  { intros [Hlo Hhi]. rewrite !Hnext, fetchStories_pageStories.
    destruct (Nat.ltb_spec (20 * k) (length storyIds)) as [_|?]; [|lia].
    destruct (Nat.ltb_spec (20 * S k) (length storyIds)) as [?|_]; [lia|].
    rewrite (skipn_all2 storyIds) by lia. repeat split; reflexivity. }
  split.
  { intros p. unfold getNextPageParam, fetchStories. cbn [hasMore].
    rewrite Array_slice_nil. reflexivity. }
  unfold getNextPageParam, fetchStories. cbn [hasMore].
  change ((0 - 1) * 20 + 20) with 0. rewrite Array_slice_to_zero by lia.
  reflexivity.
Qed.

Lemma paging_ends_on_the_first_empty_page_witness :
  getNextPageParam
    (fetchStories (fun i => mkStory i "a" "b" 0 "c" i) 1 (map Z.of_nat (seq 1 20)))
  = Some 2 /\
  pageStories
    (fetchStories (fun i => mkStory i "a" "b" 0 "c" i) 2 (map Z.of_nat (seq 1 20)))
  = [] /\
  getNextPageParam
    (fetchStories (fun i => mkStory i "a" "b" 0 "c" i) 2 (map Z.of_nat (seq 1 20)))
  = None.
Proof.
  destruct (paging_ends_on_the_first_empty_page
              (fun i => mkStory i "a" "b" 0 "c" i) (map Z.of_nat (seq 1 20)) 0)
    as (_ & H & _).
  apply H. cbn. lia.
Defined.

(** X13. [onSuccess] hands the store all the pages of [data.pages], not
    only the page that arrived. When it runs after each arrival, with the
    pages [1], then [1 .. 2], up to [1 .. n + 1], the store is the one a
    single merge of all these pages gives: handing the earlier pages over
    again changes nothing. For the top stories that is the merge of the
    stories of the first [20 (n + 1)] ids. *)
Theorem pages_handed_over_again_change_nothing :
  forall (pages : list Page) (item : Z -> Story) (storyIds : list Z)
         (n : nat) (s : UIState),
    fold_left (fun st k => onSuccessStories (firstn k pages) st) (seq 1 (S n)) s
    = onSuccessStories (firstn (S n) pages) s /\
    fold_left (fun st k => onSuccessSearch (firstn k pages) st) (seq 1 (S n)) s
    = onSuccessSearch (firstn (S n) pages) s /\
    fold_left (fun st k => onSuccessStories (firstPages item storyIds k) st)
              (seq 1 (S n)) s
    = addStories (map item (firstn (20 * S n) storyIds)) s.
Proof.
  intros pages item storyIds n s.
  split.
  { exact (addStories_growing (fun k => flat_map pageStories (firstn k pages))
             (flat_map_firstn_S pages) n s). }
  split.
  { exact (addSearchStories_growing (fun k => flat_map pageStories (firstn k pages))
             (flat_map_firstn_S pages) n s). }
  rewrite <- firstPages_stories.
  refine (addStories_growing
            (fun k => flat_map pageStories (firstPages item storyIds k)) _ n s).
  intros k. exists (pageStories (fetchStories item (Z.of_nat (S k)) storyIds)).
  rewrite firstPages_S, flat_map_app. cbn [flat_map]. rewrite app_nil_r.
  reflexivity.
Qed.

(** X14. What the search box does to the screen. A query that is blank
    after trimming shows the top stories and keeps the search request off.
    A query that is not blank and differs from the stored one shows an
    empty list until results arrive; the stored one typed again shows the
    results already there. In every case the top stories are kept, the
    search request is on exactly when the search list is shown, and the two
    requests are never on together. *)
Theorem search_box_switches_the_list :
  forall (query : string) (a : AppState),
    (trim query = "" ->
     storiesToRender (handleSearchChange query a) = stories (store a) /\
     searchEnabled (handleSearchChange query a) = false) /\
    (trim query <> "" -> query <> searchQuery (store a) ->
     storiesToRender (handleSearchChange query a) = [] /\
     searchEnabled (handleSearchChange query a) = true) /\
    (trim query <> "" -> query = searchQuery (store a) ->
     storiesToRender (handleSearchChange query a) = searchStories (store a) /\
     searchEnabled (handleSearchChange query a) = true) /\
    stories (store (handleSearchChange query a)) = stories (store a) /\
    searchEnabled (handleSearchChange query a)
    = isSearching (handleSearchChange query a) /\
    (forall ids, storiesEnabled ids a && searchEnabled a = false).
Proof.
  intros query a.
  assert (Hq : searchQuery (setSearchQuery query (store a)) = query).
  { destruct (String.eqb_spec query (searchQuery (store a))) as [->|Hne].
    - rewrite setSearchQuery_same; reflexivity.
    - rewrite setSearchQuery_other by exact Hne. reflexivity. }
  assert (Hst : stories (setSearchQuery query (store a)) = stories (store a)).
  { destruct (String.eqb_spec query (searchQuery (store a))) as [->|Hne].
    - rewrite setSearchQuery_same; reflexivity.
    - rewrite setSearchQuery_other by exact Hne. reflexivity. }
  unfold storiesToRender, searchEnabled, storiesEnabled, handleSearchChange.
  cbn [store isSearching]. rewrite Hq, Hst.
  split.
  { intros ->. split; reflexivity. }
  split.
  { intros Ht Hne. destruct (String.eqb_spec (trim query) "") as [?|_];
      [contradiction|].
    rewrite setSearchQuery_other by exact Hne. split; reflexivity. }
  split.
  { intros Ht Heq. destruct (String.eqb_spec (trim query) "") as [?|_];
      [contradiction|].
    rewrite setSearchQuery_same by exact Heq. split; reflexivity. }
  split; [reflexivity|].
  split; [apply andb_diag|].
  intros ids. destruct (isSearching a); [reflexivity|].
  rewrite andb_false_r. reflexivity.
Qed.

Lemma search_box_switches_the_list_witness :
  storiesToRender
    (handleSearchChange "rust" {| store := initialState; isSearching := false |})
  = [] /\
  searchEnabled
    (handleSearchChange "rust" {| store := initialState; isSearching := false |})
  = true.
Proof.
  destruct (search_box_switches_the_list "rust"
              {| store := initialState; isSearching := false |}) as (_ & H & _).
  apply H; cbv; discriminate.
Defined.
